(** * Dosmac Electrical: client-side behaviour layer (assets/js/main.js)

    A shallow embedding of the page controllers of [main.js] and the
    properties of its specification.  The DOM is modelled by the state the
    script reads and writes: class lists are finite sets of class names,
    [document.getElementById] is a finite map from ids to elements, timers
    set with [setTimeout] are pending entries of the state, and the browser
    services (scroll events, animation frames, intersection observation,
    [fetch]) are the inputs of the transition functions. *)

From Stdlib Require Import QArith Qround Qminmax Lqa Ascii String SpecFloat.
From stdpp Require Import gmap strings list fin_maps.

Open Scope string_scope.

(** ** 1. CONFIG *)

Record config := {
  WHATSAPP_NUMBER : string;
  FORM_ACTION_URL : string;
  WHATSAPP_DEFAULT_MESSAGE : string;
  NAVBAR_SCROLL_THRESHOLD : Q;
  COUNTER_DURATION_MS : Q;
}.

Definition CONFIG : config := {|
  WHATSAPP_NUMBER := "263717675763";
  FORM_ACTION_URL := "";
  WHATSAPP_DEFAULT_MESSAGE :=
    "Hi%20Dosmac!%20I%20need%20a%20quote%20for%20electrical%20work%20at%20my%20property.";
  NAVBAR_SCROLL_THRESHOLD := 80;
  COUNTER_DURATION_MS := 2000;
|}.

(** [el.classList] as a finite set of class names. *)
Abbreviation classList := (gset string).

Definition classList_add (c : string) (cl : classList) : classList := {[c]} ∪ cl.
Definition classList_remove (c : string) (cl : classList) : classList := cl ∖ {[c]}.
Definition classList_contains (c : string) (cl : classList) : bool :=
  bool_decide (c ∈ cl).

(** ** 3. handleNavbarScroll and the debounce utility *)

Module Navbar.

(** What the controller reads and writes: [window.scrollY], the class list
    of [#navbar] (absent when the element is missing), whether the scroll
    listener has been registered, and the timer variable of the closure
    returned by [debounce] (the delay of the pending timeout, if any). *)
Record page := {
  scrollY : Q;
  navbar : option classList;
  listening : bool;
  timer : option Z;
}.

Definition set_navbar (cl : classList) (p : page) : page :=
  {| scrollY := scrollY p; navbar := Some cl;
     listening := listening p; timer := timer p |}.

(** The inner [updateNavbar]; it closes over the navbar found at
    initialisation. *)
Definition updateNavbar (cfg : config) (p : page) : page :=
  match navbar p with
  | None => p
  | Some cl =>
      if Qle_bool (scrollY p) (NAVBAR_SCROLL_THRESHOLD cfg)
      then set_navbar (classList_remove "navbar--scrolled" cl) p
      else set_navbar (classList_add "navbar--scrolled" cl) p
  end.

(** [debounce(fn, delay)]: a call clears the pending timeout and sets a
    new one. *)
Definition debounced (delay : Z) (p : page) : page :=
  {| scrollY := scrollY p; navbar := navbar p;
     listening := listening p; timer := Some delay |}.

Definition handleNavbarScroll (cfg : config) (p : page) : page :=
  match navbar p with
  | None => p
  | Some _ =>
      let p1 := updateNavbar cfg p in
      {| scrollY := scrollY p1; navbar := navbar p1;
         listening := true; timer := timer p1 |}
  end.

(** Browser events: the window scrolls to an offset and dispatches
    [scroll]; the pending timeout expires. *)
Inductive event :=
| Scroll (offset : Q)
| TimerFires.

Definition step (cfg : config) (p : page) (e : event) : page :=
  match e with
  | Scroll o =>
      let p1 := {| scrollY := o; navbar := navbar p;
                   listening := listening p; timer := timer p |} in
      if listening p1 then debounced 10 p1 else p1
  | TimerFires =>
      match timer p with
      | None => p
      | Some _ =>
          updateNavbar cfg {| scrollY := scrollY p; navbar := navbar p;
                              listening := listening p; timer := None |}
      end
  end.

Definition run (cfg : config) (p : page) (es : list event) : page :=
  fold_left (step cfg) es p.

(** A freshly loaded document, before [init] runs. *)
Definition loaded (o : Q) (nav : option classList) : page :=
  {| scrollY := o; navbar := nav; listening := false; timer := None |}.

Definition settled (p : page) : Prop := timer p = None.

Definition scrolled (p : page) : Prop :=
  match navbar p with
  | Some cl => "navbar--scrolled" ∈ cl
  | None => False
  end.

Definition consistent (cfg : config) (p : page) : Prop :=
  scrolled p <-> (NAVBAR_SCROLL_THRESHOLD cfg < scrollY p)%Q.

(** What [init] establishes and every event preserves. *)
Definition navbar_inv (cfg : config) (p : page) : Prop :=
  listening p = true /\ is_Some (navbar p) /\ (settled p -> consistent cfg p).

End Navbar.

(** ** 4. initMobileMenu *)

(** An element as the menu and filter controllers use it: its class list
    and its attributes ([getAttribute] of a missing attribute is [None],
    JavaScript's [null]). *)
Record element := {
  classes : classList;
  attrs : gmap string string;
}.

Definition el_classList_add (c : string) (e : element) : element :=
  {| classes := classList_add c (classes e); attrs := attrs e |}.
Definition el_classList_remove (c : string) (e : element) : element :=
  {| classes := classList_remove c (classes e); attrs := attrs e |}.
Definition setAttribute (k v : string) (e : element) : element :=
  {| classes := classes e; attrs := <[k := v]> (attrs e) |}.
Definition getAttribute (k : string) (e : element) : option string :=
  attrs e !! k.

Module Menu.

(** [#navToggle], [#mobileMenu] and [#navbar] (only its presence matters),
    and whether [initMobileMenu] registered its listeners. *)
Record page := {
  toggle : option element;
  menu : option element;
  navbar : bool;
  wired : bool;
}.

Inductive menu_state := Open | Closed.

Definition is_open (p : page) : bool :=
  match menu p with
  | Some m => classList_contains "is-open" (classes m)
  | None => false
  end.

Definition state_of (p : page) : menu_state :=
  if is_open p then Open else Closed.

Definition flip (s : menu_state) : menu_state :=
  match s with Open => Closed | Closed => Open end.

Definition openMenu (p : page) : page :=
  {| toggle := (fun t => setAttribute "aria-expanded" "true"
                           (el_classList_add "is-open" t)) <$> toggle p;
     menu := (fun m => setAttribute "aria-hidden" "false"
                         (el_classList_add "is-open" m)) <$> menu p;
     navbar := navbar p; wired := wired p |}.

Definition closeMenu (p : page) : page :=
  {| toggle := (fun t => setAttribute "aria-expanded" "false"
                           (el_classList_remove "is-open" t)) <$> toggle p;
     menu := (fun m => setAttribute "aria-hidden" "true"
                         (el_classList_remove "is-open" m)) <$> menu p;
     navbar := navbar p; wired := wired p |}.

Definition toggleMenu (p : page) : page :=
  if is_open p then closeMenu p else openMenu p.

Definition initMobileMenu (p : page) : page :=
  match toggle p, menu p with
  | Some _, Some _ =>
      {| toggle := toggle p; menu := menu p; navbar := navbar p; wired := true |}
  | _, _ => p
  end.

(** Where a click lands: on the hamburger button, on one of the menu's
    [.mobile-nav-link] anchors, or on anything else; [inside_navbar] is
    the value of [navbar.contains(e.target)]. *)
Inductive place := OnToggle | OnNavLink | Elsewhere.

Record target := {
  where_ : place;
  inside_navbar : bool;
}.

Inductive event :=
| Click (t : target)
| Keydown (key : string).

(** The listener on the element the click landed on. *)
Definition element_listener (t : target) (p : page) : page :=
  match where_ t with
  | OnToggle => toggleMenu p
  | OnNavLink => closeMenu p
  | Elsewhere => p
  end.

(** The [click] listener on [document], reached when the event bubbles. *)
Definition document_click (t : target) (p : page) : page :=
  if navbar p && negb (inside_navbar t) && is_open p then closeMenu p else p.

Definition document_keydown (key : string) (p : page) : page :=
  if String.eqb key "Escape" && is_open p then closeMenu p else p.

Definition step (p : page) (e : event) : page :=
  if wired p then
    match e with
    | Click t => document_click t (element_listener t p)
    | Keydown k => document_keydown k p
    end
  else p.

Definition run (p : page) (es : list event) : page := fold_left step es p.

(** The event classes of the state machine.  Whether a click lands inside
    [#navbar] is decided by the markup, so it stays a parameter where the
    listeners read it. *)
Definition toggle_activation (inside : bool) : event :=
  Click {| where_ := OnToggle; inside_navbar := inside |}.
Definition nav_link_click (inside : bool) : event :=
  Click {| where_ := OnNavLink; inside_navbar := inside |}.
Definition cancel_key : event := Keydown "Escape".
Definition outside_click (w : place) : event :=
  Click {| where_ := w; inside_navbar := false |}.

(** The open visual and ARIA state on both the toggle and the panel, and
    its cleared form. *)
Definition shows_open (p : page) : Prop :=
  exists t m, toggle p = Some t /\ menu p = Some m /\
    ("is-open" ∈ classes t) /\ ("is-open" ∈ classes m) /\
    getAttribute "aria-expanded" t = Some "true" /\
    getAttribute "aria-hidden" m = Some "false".

(** The controller is live: both elements were found and the listeners
    are registered. *)
Definition active (p : page) : Prop :=
  wired p = true /\ is_Some (toggle p) /\ is_Some (menu p).

Definition shows_closed (p : page) : Prop :=
  exists t m, toggle p = Some t /\ menu p = Some m /\
    ("is-open" ∉ classes t) /\ ("is-open" ∉ classes m) /\
    getAttribute "aria-expanded" t = Some "false" /\
    getAttribute "aria-hidden" m = Some "true".

End Menu.

(** ** 6. animateCounters: the count-up animation

    Numbers are rationals and the arithmetic is exact: the rounding of
    JavaScript's doubles is outside this model, and is the subject of
    [CounterDouble] below.  The target is an integer (a [data-target] that
    [parseInt] reads as NaN has no counterpart here), and the quotient by a
    zero duration, NaN in the script, is 0 in [Q]: the statements on this
    model assume a positive duration.  Timestamps and the duration are in
    milliseconds. *)

Module Counter.

Local Open Scope Q_scope.

(** [Math.round]: the nearest integer, halves going up. *)
Definition Math_round (x : Q) : Z := Qfloor (x + (1 # 2)).

(** The closure state of [countUp(el)]: [startTime], the number last
    written to [el.textContent] (nothing before the first frame), and
    whether a frame callback is still requested. *)
Record anim := {
  startTime : option Q;
  textContent : option Z;
  requested : bool;
}.

(** [!startTime]: [null] and [0] are falsy. *)
Definition falsy (s : option Q) : bool :=
  match s with
  | None => true
  | Some q => Qeq_bool q 0
  end.

Definition progress_of (duration elapsed : Q) : Q := Qmin (elapsed / duration) 1.

Definition easeOutQuart (progress : Q) : Q := 1 - Qpower (1 - progress) 4.

(** What one call of [step] leaves in [el.textContent], as a function of
    the elapsed time. *)
Definition shown (duration : Q) (target : Z) (elapsed : Q) : Z :=
  let progress := progress_of duration elapsed in
  let eased := easeOutQuart progress in
  if Qlt_le_dec progress 1 then Math_round (eased * inject_Z target) else target.

(** The inner [step(timestamp)], run by the browser on an animation frame
    while one is requested. *)
Definition step (cfg : config) (target : Z) (a : anim) (timestamp : Q) : anim :=
  if requested a then
    let start := if falsy (startTime a) then timestamp
                 else default timestamp (startTime a) in
    let elapsed := timestamp - start in
    let progress := progress_of (COUNTER_DURATION_MS cfg) elapsed in
    {| startTime := Some start;
       textContent := Some (shown (COUNTER_DURATION_MS cfg) target elapsed);
       requested := if Qlt_le_dec progress 1 then true else false |}
  else a.

(** [countUp(el)] with [target = parseInt(el.getAttribute('data-target'), 10)]. *)
Definition countUp : anim :=
  {| startTime := None; textContent := None; requested := true |}.

(** The numbers displayed after each of the given frames. *)
Fixpoint frames (cfg : config) (target : Z) (a : anim) (ts : list Q) : list (option Z) :=
  match ts with
  | [] => []
  | t :: ts' =>
      let a' := step cfg target a t in
      textContent a' :: frames cfg target a' ts'
  end.




(** The specification's closed form for the intermediate values. *)
Definition spec_value (duration : Q) (target : Z) (t : Q) : Z :=
  Qfloor ((1 - Qpower (1 - t / duration) 4) * inject_Z target + (1 # 2)).

End Counter.

(** ** 6-7. The reveal-once observers of animateCounters and initScrollAnimations

    The callbacks are those of the script; the browser's side of
    [IntersectionObserver] follows the platform's algorithm: per frame and
    per observed target, an entry is queued when the threshold index or the
    intersecting flag differs from the previous frame, and the callback then
    runs on the queued entries. *)

Module Reveal.

(** DOM nodes are named by numbers. *)
Abbreviation node := nat.

(** The browser's intersection geometry of a node in one rendering frame. *)
Record geometry := {
  isIntersecting : bool;
  intersectionRatio : Q;
}.

Abbreviation frame := (node -> geometry).

(** An [IntersectionObserverEntry], as far as the callbacks read it. *)
Record entry := {
  entry_target : node;
  entry_isIntersecting : bool;
}.

(** One observation target of an observer with the state the browser keeps
    for it between frames. *)
Record registration := {
  reg_target : node;
  previousThresholdIndex : Z;
  previousIsIntersecting : bool;
}.

(** The one-time effects: [countUp(entry.target)], and the timeout that
    adds [is-visible] to the target. *)
Inductive action :=
| CountUp (el : node)
| AddVisibleAfter (delay : Z) (el : node).

Definition action_target (a : action) : node :=
  match a with
  | CountUp el => el
  | AddVisibleAfter _ el => el
  end.

(** The two observers differ in their threshold and in the effect. *)
Record observer := {
  threshold : Q;
  effect : node -> action;
}.

Definition counter_observer : observer :=
  {| threshold := 1 # 2; effect := CountUp |}.
Definition fade_observer : observer :=
  {| threshold := 12 # 100; effect := AddVisibleAfter 80 |}.

Record state := {
  targets : list registration;
  effects : list action;
}.

Definition is_observed (el : node) (regs : list registration) : bool :=
  existsb (fun r => Nat.eqb (reg_target r) el) regs.

(** [observer.observe(el)]: a node already observed is not added again. *)
Definition observe (el : node) (st : state) : state :=
  if is_observed el (targets st) then st
  else {| targets := targets st ++
                     [{| reg_target := el; previousThresholdIndex := -1;
                         previousIsIntersecting := false |}];
          effects := effects st |}.

Definition unobserve (el : node) (st : state) : state :=
  {| targets := filter (fun r => reg_target r <> el) (targets st);
     effects := effects st |}.

(** The callback given to [new IntersectionObserver], on one entry. *)
Definition on_entry (o : observer) (st : state) (e : entry) : state :=
  if entry_isIntersecting e then
    unobserve (entry_target e)
      {| targets := targets st;
         effects := effects st ++ [effect o (entry_target e)] |}
  else st.

Definition callback (o : observer) (entries : list entry) (st : state) : state :=
  fold_left (on_entry o) entries st.

(** The browser's part: with the single threshold of the observer, the
    index of the first threshold above the ratio; an entry is queued for a
    target when the index or the intersecting flag changed. *)
Definition thresholdIndex (o : observer) (g : geometry) : Z :=
  if isIntersecting g then
    if Qlt_le_dec (intersectionRatio g) (threshold o) then 0 else 1
  else 0.

Definition changed (o : observer) (f : frame) (r : registration) : bool :=
  negb (Z.eqb (thresholdIndex o (f (reg_target r))) (previousThresholdIndex r))
  || negb (Bool.eqb (isIntersecting (f (reg_target r))) (previousIsIntersecting r)).

Definition refresh (o : observer) (f : frame) (r : registration) : registration :=
  {| reg_target := reg_target r;
     previousThresholdIndex := thresholdIndex o (f (reg_target r));
     previousIsIntersecting := isIntersecting (f (reg_target r)) |}.

Definition queued (o : observer) (f : frame) (regs : list registration) : list entry :=
  (fun r => {| entry_target := reg_target r;
               entry_isIntersecting := isIntersecting (f (reg_target r)) |})
    <$> filter (fun r => changed o f r = true) regs.

(** One rendering frame: observations are updated, then the callback runs
    on the queued entries (it is not called with no entry). *)
Definition render (o : observer) (st : state) (f : frame) : state :=
  let es := queued o f (targets st) in
  callback o es {| targets := refresh o f <$> targets st; effects := effects st |}.

(** [animateCounters] and [initScrollAnimations] after their queries: no
    observer is made for an empty node list; otherwise every node is
    observed. *)
Definition init (els : list node) : state :=
  fold_left (fun st el => observe el st) els {| targets := []; effects := [] |}.

Definition run (o : observer) (els : list node) (fs : list frame) : state :=
  fold_left (render o) fs (init els).

(** How many times the one-time effect was performed on a node. *)
Definition fired (el : node) (acts : list action) : nat :=
  length (filter (fun a => action_target a = el) acts).

Definition observed (el : node) (st : state) : Prop :=
  el ∈ reg_target <$> targets st.

(** Observed nodes are distinct, a node under observation has not had its
    effect, and no node has had it twice. *)
Definition reveal_inv (st : state) : Prop :=
  NoDup (reg_target <$> targets st)
  /\ forall el, (el ∈ reg_target <$> targets st -> fired el (effects st) = 0)
                /\ fired el (effects st) <= 1.

End Reveal.

(** ** 8. initPortfolioFilter *)

Module Portfolio.

(** The [.portfolio-tab] and [.portfolio-item] node lists in document
    order, and whether the click listeners were registered. *)
Record page := {
  tabs : list element;
  items : list element;
  wired : bool;
}.

Definition initPortfolioFilter (p : page) : page :=
  match tabs p, items p with
  | [], _ | _, [] => p
  | _, _ => {| tabs := tabs p; items := items p; wired := true |}
  end.

Definition deactivate (t : element) : element :=
  setAttribute "aria-selected" "false" (el_classList_remove "portfolio-tab--active" t).

Definition activate (t : element) : element :=
  setAttribute "aria-selected" "true" (el_classList_add "portfolio-tab--active" t).

(** The body of [items.forEach]: [filter === 'all' || category === filter],
    where both attributes may be [null]. *)
Definition matches (filter : option string) (item : element) : bool :=
  bool_decide (filter = Some "all")
  || bool_decide (getAttribute "data-category" item = filter).

Definition show_or_hide (filter : option string) (item : element) : element :=
  if matches filter item then el_classList_remove "hidden" item
  else el_classList_add "hidden" item.

(** The click listener of the tab at position [i]. *)
Definition on_click (i : nat) (p : page) : page :=
  match tabs p !! i with
  | None => p
  | Some tab =>
      let filter := getAttribute "data-filter" tab in
      let tabs1 := deactivate <$> tabs p in
      {| tabs := alter activate i tabs1;
         items := show_or_hide filter <$> items p;
         wired := wired p |}
  end.

(** A click on the tab at position [i] of the page. *)
Definition click (i : nat) (p : page) : page :=
  if wired p then on_click i p else p.

Definition is_shown (item : element) : Prop := "hidden" ∉ classes item.

Definition is_active (t : element) : Prop :=
  ("portfolio-tab--active" ∈ classes t) /\ getAttribute "aria-selected" t = Some "true".

(** The markup before [init] ran. *)
Definition markup (ts its : list element) : page :=
  {| tabs := ts; items := its; wired := false |}.

End Portfolio.

(** ** String primitives of the platform

    Strings are their UTF-8 bytes.  [String.prototype.trim] removes the
    ECMAScript white space and line terminators from both ends;
    [encodeURIComponent] keeps the unreserved characters and writes every
    other byte as a percent escape. *)

Module JsString.

Definition code (a : ascii) : nat := nat_of_ascii a.

(** TAB, LF, VT, FF, CR and SPACE. *)
Definition ws1 (a : ascii) : bool :=
  (Nat.leb 9 (code a) && Nat.leb (code a) 13) || Nat.eqb (code a) 32.

(** U+00A0. *)
Definition ws2 (a b : ascii) : bool :=
  Nat.eqb (code a) 194 && Nat.eqb (code b) 160.

(** U+1680, U+2000 to U+200A, U+2028, U+2029, U+202F, U+205F, U+3000 and
    U+FEFF. *)
Definition ws3 (a b c : ascii) : bool :=
  (Nat.eqb (code a) 225 && Nat.eqb (code b) 154 && Nat.eqb (code c) 128)
  || (Nat.eqb (code a) 226 && Nat.eqb (code b) 128
      && ((Nat.leb 128 (code c) && Nat.leb (code c) 138)
          || Nat.eqb (code c) 168 || Nat.eqb (code c) 169 || Nat.eqb (code c) 175))
  || (Nat.eqb (code a) 226 && Nat.eqb (code b) 129 && Nat.eqb (code c) 159)
  || (Nat.eqb (code a) 227 && Nat.eqb (code b) 128 && Nat.eqb (code c) 128)
  || (Nat.eqb (code a) 239 && Nat.eqb (code b) 187 && Nat.eqb (code c) 191).

(** Drops white space from the front; [w2] and [w3] recognise the two and
    three byte characters in the order the bytes are met. *)
Fixpoint strip (w2 : ascii -> ascii -> bool) (w3 : ascii -> ascii -> ascii -> bool)
    (l : list ascii) : list ascii :=
  match l with
  | [] => []
  | a :: l1 =>
      if ws1 a then strip w2 w3 l1
      else match l1 with
           | [] => l
           | b :: l2 =>
               if w2 a b then strip w2 w3 l2
               else match l2 with
                    | [] => l
                    | c :: l3 => if w3 a b c then strip w2 w3 l3 else l
                    end
           end
  end.

Definition trimStart (l : list ascii) : list ascii := strip ws2 ws3 l.

Definition trimEnd (l : list ascii) : list ascii :=
  rev (strip (fun a b => ws2 b a) (fun a b c => ws3 c b a) (rev l)).

Definition trim (s : string) : string :=
  string_of_list_ascii (trimEnd (trimStart (list_ascii_of_string s))).

Definition unreserved (a : ascii) : bool :=
  let n := code a in
  (Nat.leb 65 n && Nat.leb n 90) || (Nat.leb 97 n && Nat.leb n 122)
  || (Nat.leb 48 n && Nat.leb n 57)
  || existsb (Nat.eqb n) [45; 95; 46; 33; 126; 42; 39; 40; 41]%nat.

Definition hex_digit (n : nat) : ascii :=
  if Nat.ltb n 10 then ascii_of_nat (48 + n) else ascii_of_nat (55 + n).

Definition percent (a : ascii) : string :=
  String "%" (String (hex_digit (code a / 16)) (String (hex_digit (code a mod 16)) "")).

(** Defined on well-formed text.  On a string holding a surrogate code unit
    that is not part of a pair the platform function throws [URIError]; that
    case is [ContactThrow] below. *)
Fixpoint encodeURIComponent (s : string) : string :=
  match s with
  | EmptyString => ""
  | String a s' =>
      (if unreserved a then String a "" else percent a) ++ encodeURIComponent s'
  end.

(** [parts.join(sep)]. *)
Fixpoint join (sep : string) (parts : list string) : string :=
  match parts with
  | [] => ""
  | [x] => x
  | x :: rest => x ++ sep ++ join sep rest
  end.

Definition newline : string := String (ascii_of_nat 10) "".
Definition dquote : string := String (ascii_of_nat 34) "".


End JsString.

(** ** 9. handleContactForm *)

Module Contact.

Import JsString.

(** An element reached by [document.getElementById]: the parts of it the
    form code reads or writes.  [form_control] tells whether
    [form.reset()] restores its value. *)
Record felement := {
  value : string;
  defaultValue : string;
  textContent : string;
  borderColor : string;
  form_control : bool;
}.

Definition set_textContent (t : string) (e : felement) : felement :=
  {| value := value e; defaultValue := defaultValue e; textContent := t;
     borderColor := borderColor e; form_control := form_control e |}.
Definition set_borderColor (c : string) (e : felement) : felement :=
  {| value := value e; defaultValue := defaultValue e; textContent := textContent e;
     borderColor := c; form_control := form_control e |}.
Definition reset_value (e : felement) : felement :=
  if form_control e then
    {| value := defaultValue e; defaultValue := defaultValue e;
       textContent := textContent e; borderColor := borderColor e;
       form_control := true |}
  else e.

(** The content of the submit button: set through [textContent] or through
    [innerHTML]. *)
Inductive content :=
| Text (s : string)
| Html (s : string).

Record button := {
  disabled : bool;
  label : content;
}.

Record feedback_slot := {
  fb_textContent : string;
  fb_className : string;
}.

(** What a pending [setTimeout] will do. *)
Inductive timer_action :=
| OpenWindow (url : string)
| ReenableSubmit.

(** What leaves the page, in the order it happens. *)
Inductive effect :=
| Fetch (url : string)
| Notice (message kind : string)
| WindowOpen (url : string)
| ConsoleWarn.

Record page := {
  doc : gmap string felement;
  form : bool;
  feedback : option feedback_slot;
  submitBtn : option button;
  timers : list (Z * timer_action);
  log : list effect;
}.

Definition with_doc (d : gmap string felement) (p : page) : page :=
  {| doc := d; form := form p; feedback := feedback p; submitBtn := submitBtn p;
     timers := timers p; log := log p |}.
Definition with_submitBtn (b : option button) (p : page) : page :=
  {| doc := doc p; form := form p; feedback := feedback p; submitBtn := b;
     timers := timers p; log := log p |}.
Definition emit (e : effect) (p : page) : page :=
  {| doc := doc p; form := form p; feedback := feedback p; submitBtn := submitBtn p;
     timers := timers p; log := log p ++ [e] |}.
Definition setTimeout (a : timer_action) (delay : Z) (p : page) : page :=
  {| doc := doc p; form := form p; feedback := feedback p; submitBtn := submitBtn p;
     timers := timers p ++ [(delay, a)]; log := log p |}.

Definition isEmpty (f : felement) : bool :=
  String.eqb (trim (value f)) "" || String.eqb (value f) "".

Definition validateField (fieldId errorId message : string) (p : page) : bool * page :=
  match doc p !! fieldId, doc p !! errorId with
  | Some field, Some _ =>
      let empty := isEmpty field in
      let d1 := alter (set_textContent (if empty then message else "")) errorId (doc p) in
      let d2 := alter (set_borderColor (if empty then "#FF5555" else "")) fieldId d1 in
      (negb empty, with_doc d2 p)
  | _, _ => (true, p)
  end.

(** The four required fields: input id, error slot id, message. *)
Definition required : list (string * string * string) :=
  [ ("clientName",  "nameError",    "Please enter your name.");
    ("clientPhone", "phoneError",   "Please enter your phone number.");
    ("serviceType", "serviceError", "Please select a service type.");
    ("clientArea",  "areaError",    "Please enter your area or suburb.") ].

Definition validateForm (p : page) : bool * page :=
  let '(nameOk, p1)    := validateField "clientName"  "nameError"    "Please enter your name." p in
  let '(phoneOk, p2)   := validateField "clientPhone" "phoneError"   "Please enter your phone number." p1 in
  let '(serviceOk, p3) := validateField "serviceType" "serviceError" "Please select a service type." p2 in
  let '(areaOk, p4)    := validateField "clientArea"  "areaError"    "Please enter your area or suburb." p3 in
  (nameOk && phoneOk && serviceOk && areaOk, p4).

Definition showFeedback (message kind : string) (p : page) : page :=
  match feedback p with
  | None => p
  | Some _ =>
      emit (Notice message kind)
        {| doc := doc p; form := form p;
           feedback := Some {| fb_textContent := message;
                               fb_className := "form-feedback " ++ kind |};
           submitBtn := submitBtn p; timers := timers p; log := log p |}
  end.

(** The own members of the [serviceLabels] literal.  A lookup in the literal
    also finds the members every object inherits ([constructor], [toString],
    ...); the map stands for the literal on every other key. *)
Definition serviceLabels : gmap string string :=
  list_to_map
    [ ("solar",      "Solar Installation");
      ("wiring",     "House Wiring / Rewire");
      ("industrial", "Industrial / Commercial");
      ("lighting",   "Lighting Installation");
      ("ac",         "AC Installation / Repair");
      ("db-board",   "DB Board Upgrade");
      ("other",      "Other / Not Sure") ].

(** [a || b] on strings: the empty string is falsy. *)
Definition or_else (a b : string) : string := if String.eqb a "" then b else a.

(** [document.getElementById(id)?.value.trim() || ''] and the untrimmed
    form used for the service. *)
Definition trimmed_value (id : string) (p : page) : string :=
  match doc p !! id with
  | Some f => or_else (trim (value f)) ""
  | None => ""
  end.
Definition raw_value (id : string) (p : page) : string :=
  match doc p !! id with
  | Some f => or_else (value f) ""
  | None => ""
  end.

Definition fallback_notice : string :=
  "✓ Opening WhatsApp with your details pre-filled. We'll reply within the hour!".

Definition waText (p : page) : string :=
  let name    := trimmed_value "clientName" p in
  let phone   := trimmed_value "clientPhone" p in
  let service := raw_value "serviceType" p in
  let area    := trimmed_value "clientArea" p in
  let message := trimmed_value "clientMessage" p in
  let serviceLabel :=
    match serviceLabels !! service with
    | Some l => or_else l service
    | None => service
    end in
  join newline
    (filter (fun x => x <> "")
       [ "Hi Dosmac! I'd like a quote for:";
         "Service: " ++ serviceLabel;
         "Area: " ++ area;
         "Name: " ++ name;
         "Phone: " ++ phone;
         if String.eqb message "" then "" else "Details: " ++ message ]).

Definition waUrl (cfg : config) (p : page) : string :=
  "https://wa.me/" ++ WHATSAPP_NUMBER cfg ++ "?text=" ++ encodeURIComponent (waText p).

Definition fallbackToWhatsApp (cfg : config) (p : page) : page :=
  setTimeout (OpenWindow (waUrl cfg p)) 1500
    (showFeedback fallback_notice "success" p).

(** The label the handler writes back with [innerHTML]. *)
Definition send_label : content :=
  Html ("<i class=" ++ dquote ++ "fa-solid fa-paper-plane" ++ dquote
        ++ "></i> Send My Enquiry — We'll Reply Within 1 Hour").

Definition sent_notice : string :=
  "✓ Message sent! We'll be in touch within the hour. For urgent jobs call us directly.".

Definition disable_submit (p : page) : page :=
  with_submitBtn ((fun _ => {| disabled := true; label := Text "Sending..." |})
                    <$> submitBtn p) p.

Definition reenable_submit (p : page) : page :=
  with_submitBtn ((fun _ => {| disabled := false; label := send_label |})
                    <$> submitBtn p) p.

Definition form_reset (p : page) : page := with_doc (reset_value <$> doc p) p.

(** How the awaited [fetch] settles: a response with [ok] set, a response
    without it, or a rejection. *)
Inductive response := Ok | NotOk | NetworkError.

(** The [submit] listener, registered when [#contactForm] exists, as it runs
    when no statement throws, that is on well-formed field text; the run in
    which [encodeURIComponent] throws is [ContactThrow.on_submit_t]. *)
Definition on_submit (cfg : config) (r : response) (p : page) : page :=
  if form p then
    let '(valid, p1) := validateForm p in
    if negb valid then p1
    else
      let p2 := disable_submit p1 in
      if String.eqb (FORM_ACTION_URL cfg) "" then
        setTimeout ReenableSubmit 3000 (fallbackToWhatsApp cfg p2)
      else
        let p3 := emit (Fetch (FORM_ACTION_URL cfg)) p2 in
        let p4 :=
          match r with
          | Ok => showFeedback sent_notice "success" (form_reset p3)
          | NotOk => fallbackToWhatsApp cfg p3
          | NetworkError => fallbackToWhatsApp cfg (emit ConsoleWarn p3)
          end in
        reenable_submit p4
  else p.

(** Expiry of a timeout. *)
Definition fire (p : page) (t : Z * timer_action) : page :=
  match snd t with
  | OpenWindow url => emit (WindowOpen url) p
  | ReenableSubmit => reenable_submit p
  end.

(** Pending timeouts expire by increasing delay, and in the order they
    were set among equal delays. *)
Fixpoint schedule (t : Z * timer_action) (l : list (Z * timer_action)) :
    list (Z * timer_action) :=
  match l with
  | [] => [t]
  | u :: l' => if Z.ltb (fst t) (fst u) then t :: l else u :: schedule t l'
  end.

Definition by_delay (l : list (Z * timer_action)) : list (Z * timer_action) :=
  fold_left (fun acc t => schedule t acc) l [].

(** The page once every pending timeout has expired. *)
Definition settle (p : page) : page :=
  fold_left fire (by_delay (timers p))
    {| doc := doc p; form := form p; feedback := feedback p;
       submitBtn := submitBtn p; timers := []; log := log p |}.

(** The submit button as the handler restores it. *)
Definition restored : button := {| disabled := false; label := send_label |}.


Definition is_fetch (e : effect) : bool :=
  match e with Fetch _ => true | _ => false end.
Definition is_redirect (e : effect) : bool :=
  match e with WindowOpen _ => true | _ => false end.

(** The markup of the contact section as the DOM contract has it: every
    required input and its error slot exist. *)
Definition well_formed (p : page) : Prop :=
  forall f e m, (f, e, m) ∈ required -> is_Some (doc p !! f) /\ is_Some (doc p !! e).

(** What [validateField] returns for a field, read off the page. *)
Definition passes (fieldId errorId : string) (p : page) : bool :=
  match doc p !! fieldId, doc p !! errorId with
  | Some field, Some _ => negb (isEmpty field)
  | _, _ => true
  end.

(** Two pages that differ at most in error texts and border colours. *)
Definition same_inputs (p p' : page) : Prop :=
  form p' = form p /\ feedback p' = feedback p /\ submitBtn p' = submitBtn p
  /\ timers p' = timers p /\ log p' = log p
  /\ forall id, value <$> doc p' !! id = value <$> doc p !! id.

(** The marks one validation leaves on a field that held [field]: the
    border colour of the field and the text of its error slot. *)
Definition marked (p' : page) (fieldId errorId message : string) (field : felement) : Prop :=
  exists field' error',
    doc p' !! fieldId = Some field' /\ doc p' !! errorId = Some error'
    /\ value field' = value field
    /\ borderColor field' = (if isEmpty field then "#FF5555" else "")
    /\ textContent error' = (if isEmpty field then message else "").

(** The notice of the fallback, logged when the feedback slot exists. *)
Definition fallback_notices (p : page) : list effect :=
  match feedback p with
  | Some _ => [Notice fallback_notice "success"]
  | None => []
  end.


(** A sample page: the scenario of the specification. *)
Definition input (v : string) : felement :=
  {| value := v; defaultValue := ""; textContent := ""; borderColor := "";
     form_control := true |}.
Definition slot : felement :=
  {| value := ""; defaultValue := ""; textContent := ""; borderColor := "";
     form_control := false |}.

Definition sample_page (name phone service area : string) : page :=
  {| doc := list_to_map
       [ ("clientName", input name); ("nameError", slot);
         ("clientPhone", input phone); ("phoneError", slot);
         ("serviceType", input service); ("serviceError", slot);
         ("clientArea", input area); ("areaError", slot);
         ("clientMessage", input "") ];
     form := true;
     feedback := Some {| fb_textContent := ""; fb_className := "form-feedback" |};
     submitBtn := Some {| disabled := false; label := send_label |};
     timers := [];
     log := [] |}.

End Contact.

(** ** 9b. handleContactForm: the input listeners *)

Module ContactInput.

Import Contact.

(** The ids the listeners are registered for, and the object literal that
    maps each to its error slot. *)
Definition watched : list string :=
  ["clientName"; "clientPhone"; "serviceType"; "clientArea"].

Definition error_slot_of : gmap string string :=
  list_to_map
    [ ("clientName", "nameError"); ("clientPhone", "phoneError");
      ("serviceType", "serviceError"); ("clientArea", "areaError") ].

(** What neither validation nor an input event touches of an element. *)
Definition kept (e : felement) : string * string * bool :=
  (value e, defaultValue e, form_control e).

(** The [input] listener of the field [fieldId].  It exists when the form
    and the field exist and the id is one of the watched ones; the error
    slot is looked up when the event arrives. *)
Definition on_input (fieldId : string) (p : page) : page :=
  if form p && bool_decide (fieldId ∈ watched) then
    match doc p !! fieldId with
    | None => p
    | Some _ =>
        let d1 := alter (set_borderColor "") fieldId (doc p) in
        match error_slot_of !! fieldId with
        | Some errorId => with_doc (alter (set_textContent "") errorId d1) p
        | None => with_doc d1 p
        end
    end
  else p.

End ContactInput.

(** ** Auxiliary notions for the string primitives *)

Module JsStringAux.

Import JsString.

(** Whether [strip] removes something from the front of the list. *)
Definition starts_ws (w2 : ascii -> ascii -> bool) (w3 : ascii -> ascii -> ascii -> bool)
    (l : list ascii) : bool :=
  match l with
  | [] => false
  | a :: l1 =>
      ws1 a
      || match l1 with
         | [] => false
         | b :: l2 =>
             w2 a b
             || match l2 with
                | [] => false
                | c :: _ => w3 a b c
                end
         end
  end.

(** The characters [encodeURIComponent] can produce. *)
Definition url_safe (a : ascii) : bool := unreserved a || Ascii.eqb a "%".

Definition hex_value (a : ascii) : nat :=
  let n := code a in
  if Nat.leb 48 n && Nat.leb n 57 then n - 48 else n - 55.

(** Reads percent escapes back; a left inverse of [encodeURIComponent]. *)
Fixpoint unescape (s : string) : string :=
  match s with
  | EmptyString => ""
  | String c s1 =>
      if Ascii.eqb c "%" then
        match s1 with
        | String h1 (String h2 s3) =>
            String (ascii_of_nat (16 * hex_value h1 + hex_value h2)) (unescape s3)
        | _ => String c (unescape s1)
        end
      else String c (unescape s1)
  end.

(** The names every JavaScript object inherits from [Object.prototype]: a
    lookup of one of them in the [serviceLabels] literal finds the inherited
    member, not [undefined]. *)
Definition object_prototype_keys : list string :=
  [ "constructor"; "hasOwnProperty"; "isPrototypeOf"; "propertyIsEnumerable";
    "toLocaleString"; "toString"; "valueOf"; "__proto__";
    "__defineGetter__"; "__defineSetter__"; "__lookupGetter__"; "__lookupSetter__" ].

End JsStringAux.

(** ** 6b. The arithmetic of countUp in double precision

    [Counter] computes in exact rationals, which is enough wherever only
    comparisons and the monotonicity of the operations matter.  The numbers
    of the script are IEEE 754 doubles: this module evaluates the body of
    [step] on them, with the operations of [SpecFloat] at precision 53. *)

Module CounterDouble.

Local Open Scope Z_scope.

Definition prec : Z := 53.
Definition emax : Z := 1024.

Abbreviation double := spec_float.

(** The double nearest to an integer. *)
Definition of_Z (z : Z) : double := binary_normalize prec emax z 0 false.

Definition fdiv : double -> double -> double := SFdiv prec emax.
Definition fsub : double -> double -> double := SFsub prec emax.
Definition fmul : double -> double -> double := SFmul prec emax.

(** [Math.min]: NaN if either argument is, and -0 below +0. *)
Definition Math_min (a b : double) : double :=
  match a, b with
  | S754_nan, _ | _, S754_nan => S754_nan
  | S754_zero sa, S754_zero sb => S754_zero (sa || sb)
  | _, _ => if SFltb a b then a else b
  end.

(** [Math.pow(x, 4)].  ECMAScript asks only for an approximation of the real
    power; the product [(x*x)*(x*x)] in doubles is taken for it. *)
Definition Math_pow4 (x : double) : double := let s := fmul x x in fmul s s.

(** What a number reads as in [el.textContent], for the numbers the script
    writes there: integers, NaN and the infinities. *)
Inductive number_text :=
| Integer (z : Z)
| NaN_text
| Infinity_text (negative : bool).

(** The text of [Math.round(x)]: the nearest integer, halves going up. *)
Definition Math_round_text (x : double) : number_text :=
  match x with
  | S754_nan => NaN_text
  | S754_infinity s => Infinity_text s
  | S754_zero _ => Integer 0
  | S754_finite s m e =>
      let n := cond_Zopp s (Zpos m) in
      if 0 <=? e then Integer (n * 2 ^ e)
      else Integer ((2 * n + 2 ^ (- e)) / 2 ^ (1 - e))
  end.


(** The text of [target], which [parseInt] makes an integer or NaN. *)
Definition target_text (target : double) : number_text := Math_round_text target.

Definition progress_of (duration elapsed : double) : double :=
  Math_min (fdiv elapsed duration) (of_Z 1).

Definition easeOutQuart (progress : double) : double :=
  fsub (of_Z 1) (Math_pow4 (fsub (of_Z 1) progress)).

(** What one call of [step] leaves in [el.textContent]. *)
Definition shown (duration target elapsed : double) : number_text :=
  let progress := progress_of duration elapsed in
  let eased := easeOutQuart progress in
  if SFltb progress (of_Z 1) then Math_round_text (fmul eased target)
  else target_text target.

(** The specification's closed form, evaluated in doubles. *)
Definition spec_value (duration target t : double) : number_text :=
  Math_round_text
    (fmul (fsub (of_Z 1) (Math_pow4 (fsub (of_Z 1) (fdiv t duration)))) target).

End CounterDouble.

(** ** 9c. handleContactForm when encodeURIComponent throws

    Strings are in generalized UTF-8: a surrogate code unit that is not part
    of a pair is the three bytes [ED], [A0..BF], [80..BF].  On a text with
    such a unit [encodeURIComponent] throws [URIError]; in
    [fallbackToWhatsApp] this happens where the link is built, before the
    notice is shown and before the timeout is set. *)

Module ContactThrow.

Import JsString Contact.

Fixpoint has_lone_surrogate (s : string) : bool :=
  match s with
  | String a ((String b _) as s1) =>
      (Nat.eqb (code a) 237 && Nat.leb 160 (code b) && Nat.leb (code b) 191)
      || has_lone_surrogate s1
  | _ => false
  end.

(** [fallbackToWhatsApp]; [None] when it throws. *)
Definition fallbackToWhatsApp_t (cfg : config) (p : page) : option page :=
  if has_lone_surrogate (waText p) then None else Some (fallbackToWhatsApp cfg p).

(** The handler from the point where the awaited [fetch] settles, on the
    page as it is then: the rest of the [try], the [catch] and the [finally].
    The page it leaves, and whether an exception leaves the handler. *)
Definition on_submit_settled (cfg : config) (r : response) (q : page) : page * bool :=
  let tried :=
    match r with
    | Ok => (showFeedback sent_notice "success" (form_reset q), false)
    | NotOk =>
        match fallbackToWhatsApp_t cfg q with
        | Some q' => (q', false)
        | None => (q, true)
        end
    | NetworkError => (q, true)
    end in
  let caught :=
    if snd tried then
      let q1 := emit ConsoleWarn (fst tried) in
      match fallbackToWhatsApp_t cfg q1 with
      | Some q' => (q', false)
      | None => (q1, true)
      end
    else tried in
  (reenable_submit (fst caught), snd caught).

(** The [submit] listener with its [try], [catch] and [finally], when no
    other event is handled while it waits for [fetch]: the page it leaves,
    and whether an exception leaves the handler. *)
Definition on_submit_t (cfg : config) (r : response) (p : page) : page * bool :=
  if form p then
    let '(valid, p1) := validateForm p in
    if negb valid then (p1, false)
    else
      let p2 := disable_submit p1 in
      if String.eqb (FORM_ACTION_URL cfg) "" then
        match fallbackToWhatsApp_t cfg p2 with
        | Some p3 => (setTimeout ReenableSubmit 3000 p3, false)
        | None => (p2, true)
        end
      else on_submit_settled cfg r (emit (Fetch (FORM_ACTION_URL cfg)) p2)
  else (p, false).

(** The button while a submission is pending. *)
Definition sending : button := {| disabled := true; label := Text "Sending..." |}.

(** An unpaired high surrogate, U+D800. *)
Definition lone_surrogate : string :=
  String (ascii_of_nat 237) (String (ascii_of_nat 160) (String (ascii_of_nat 128) "")).

(** The same configuration with the endpoint [url]. *)
Definition with_endpoint (url : string) (cfg : config) : config :=
  {| WHATSAPP_NUMBER := WHATSAPP_NUMBER cfg; FORM_ACTION_URL := url;
     WHATSAPP_DEFAULT_MESSAGE := WHATSAPP_DEFAULT_MESSAGE cfg;
     NAVBAR_SCROLL_THRESHOLD := NAVBAR_SCROLL_THRESHOLD cfg;
     COUNTER_DURATION_MS := COUNTER_DURATION_MS cfg |}.

(** The same page with a submit button that the markup labels [l]. *)
Definition labelled (l : content) (p : page) : page :=
  with_submitBtn (Some {| disabled := false; label := l |}) p.

End ContactThrow.

(** * Properties *)

(** ** Class lists *)

Lemma classList_add_elem c cl : c ∈ classList_add c cl.
Proof. unfold classList_add. apply elem_of_union_l, elem_of_singleton. reflexivity. Qed.

Lemma classList_remove_not_elem c cl : c ∉ classList_remove c cl.
Proof.
  unfold classList_remove. rewrite elem_of_difference, elem_of_singleton.
  intros [_ Hne]. apply Hne. reflexivity.
Qed.

Lemma classList_contains_true c cl : classList_contains c cl = true <-> c ∈ cl.
Proof. unfold classList_contains. apply bool_decide_eq_true. Qed.

Lemma classList_contains_false c cl : classList_contains c cl = false <-> c ∉ cl.
Proof. unfold classList_contains. apply bool_decide_eq_false. Qed.

(** ** The navbar scroll style *)

Section NavbarScroll.

Import Navbar.
Variable cfg : config.

Lemma updateNavbar_consistent p :
  is_Some (navbar p) -> consistent cfg (updateNavbar cfg p).
Proof.
  intros [cl Hcl]. unfold updateNavbar, consistent, scrolled. rewrite Hcl.
  destruct (Qle_bool (scrollY p) (NAVBAR_SCROLL_THRESHOLD cfg)) eqn:Hle; simpl.
  - apply Qle_bool_iff in Hle. split.
    + intros Hin. exfalso. revert Hin. apply classList_remove_not_elem.
    + intros Hlt. exfalso. revert Hlt. apply Qle_not_lt, Hle.
  - split.
    + intros _. apply Qnot_le_lt. intros Hle'.
      apply Qle_bool_iff in Hle'. congruence.
    + intros _. apply classList_add_elem.
Qed.

Lemma updateNavbar_frame p :
  listening (updateNavbar cfg p) = listening p
  /\ timer (updateNavbar cfg p) = timer p
  /\ scrollY (updateNavbar cfg p) = scrollY p
  /\ (is_Some (navbar p) -> is_Some (navbar (updateNavbar cfg p))).
Proof.
  unfold updateNavbar. destruct (navbar p) as [cl|] eqn:Hcl.
  - destruct (Qle_bool _ _); simpl; repeat split; eauto.
  - rewrite Hcl. repeat split; eauto.
Qed.

Lemma navbar_init_inv o cl : navbar_inv cfg (handleNavbarScroll cfg (loaded o (Some cl))).
Proof.
  unfold handleNavbarScroll, navbar_inv. simpl.
  set (p := loaded o (Some cl)).
  destruct (updateNavbar_frame p) as (_ & Ht & Hy & Hn).
  assert (Hc : consistent cfg (updateNavbar cfg p)) by (apply updateNavbar_consistent; eauto).
  split; [reflexivity|]. split; [apply Hn; eauto|].
  intros _. unfold consistent, scrolled in *. simpl. exact Hc.
Qed.

Lemma navbar_step_inv p e : navbar_inv cfg p -> navbar_inv cfg (step cfg p e).
Proof.
  intros (Hl & Hn & Hc). destruct e as [o|]; simpl.
  - rewrite Hl. unfold navbar_inv, debounced, settled; simpl.
    split; [reflexivity|]. split; [exact Hn|]. discriminate.
  - destruct (timer p) as [d|] eqn:Ht.
    + set (q := {| scrollY := scrollY p; navbar := navbar p;
                   listening := listening p; timer := None |}).
      destruct (updateNavbar_frame q) as (Hl' & Ht' & _ & Hn').
      unfold navbar_inv. rewrite Hl'. split; [exact Hl|]. split; [apply Hn', Hn|].
      intros _. apply updateNavbar_consistent. exact Hn.
    + unfold navbar_inv. auto.
Qed.

Lemma navbar_run_inv es : forall p, navbar_inv cfg p -> navbar_inv cfg (run cfg p es).
Proof.
  induction es as [|e es IH]; intros p Hp; simpl; [exact Hp|].
  apply IH, navbar_step_inv, Hp.
Qed.

(** C4. With the navbar present, it carries the scrolled state exactly
    when the offset is strictly past the threshold: right after
    initialisation, whatever the offset the page was loaded at and before
    any scroll event, and after any sequence of scroll events and timer
    expiries once no debounce timer is pending. *)
Theorem navbar_scrolled_iff_past_threshold (o : Q) (cl : classList) (es : list event) :
  let p0 := handleNavbarScroll cfg (loaded o (Some cl)) in
  (scrollY p0 = o /\ settled p0 /\ consistent cfg p0)
  /\ (settled (run cfg p0 es) -> consistent cfg (run cfg p0 es)).
Proof.
  intros p0. pose proof (navbar_init_inv o cl) as Hinv. fold p0 in Hinv.
  split.
  - assert (Hs : settled p0 /\ scrollY p0 = o).
    { unfold p0, handleNavbarScroll. simpl.
      destruct (updateNavbar_frame (loaded o (Some cl))) as (_ & Ht & Hy & _).
      unfold settled. simpl. rewrite Ht, Hy. split; reflexivity. }
    destruct Hs as [Hs Hy]. split; [exact Hy|]. split; [exact Hs|].
    destruct Hinv as (_ & _ & Hc). apply Hc, Hs.
  - intros Hs. destruct (navbar_run_inv es p0 Hinv) as (_ & _ & Hc). apply Hc, Hs.
Qed.

End NavbarScroll.

Lemma navbar_scrolled_iff_past_threshold_witness :
  Navbar.consistent CONFIG
    (Navbar.run CONFIG (Navbar.handleNavbarScroll CONFIG (Navbar.loaded 0 (Some ∅)))
       [Navbar.Scroll 120; Navbar.Scroll 300; Navbar.TimerFires]).
Proof.
  apply (navbar_scrolled_iff_past_threshold CONFIG 0 ∅
           [Navbar.Scroll 120; Navbar.Scroll 300; Navbar.TimerFires]).
  reflexivity.
Defined.

(** ** The mobile menu *)

Section MobileMenu.

Import Menu.

Lemma closeMenu_closed p :
  is_Some (toggle p) -> is_Some (menu p) ->
  is_open (closeMenu p) = false /\ shows_closed (closeMenu p).
Proof.
  intros [t Ht] [m Hm]. unfold is_open, shows_closed, closeMenu. simpl.
  rewrite Ht, Hm. simpl. split.
  - apply classList_contains_false, classList_remove_not_elem.
  - eexists _, _. split; [reflexivity|]. split; [reflexivity|]. simpl.
    unfold getAttribute. simpl.
    repeat split; try apply classList_remove_not_elem; apply lookup_insert_eq.
Qed.

Lemma openMenu_open p :
  is_Some (toggle p) -> is_Some (menu p) ->
  is_open (openMenu p) = true /\ shows_open (openMenu p).
Proof.
  intros [t Ht] [m Hm]. unfold is_open, shows_open, openMenu. simpl.
  rewrite Ht, Hm. simpl. split.
  - apply classList_contains_true, classList_add_elem.
  - eexists _, _. split; [reflexivity|]. split; [reflexivity|]. simpl.
    unfold getAttribute. simpl.
    repeat split; try apply classList_add_elem; apply lookup_insert_eq.
Qed.

Lemma closeMenu_active p : active p -> active (closeMenu p).
Proof.
  intros (Hw & Ht & Hm). unfold active, closeMenu. simpl.
  split; [exact Hw|]. split; apply fmap_is_Some; assumption.
Qed.

Lemma openMenu_active p : active p -> active (openMenu p).
Proof.
  intros (Hw & Ht & Hm). unfold active, openMenu. simpl.
  split; [exact Hw|]. split; apply fmap_is_Some; assumption.
Qed.

Lemma menu_init_active p :
  is_Some (toggle p) -> is_Some (menu p) ->
  active (initMobileMenu p) /\ is_open (initMobileMenu p) = is_open p
  /\ navbar (initMobileMenu p) = navbar p.
Proof.
  intros [t Ht] [m Hm]. unfold initMobileMenu. rewrite Ht, Hm.
  unfold active, is_open. simpl. rewrite ?Ht, ?Hm. eauto 10.
Qed.

Lemma menu_step_active p e : active p -> active (step p e) /\ navbar (step p e) = navbar p.
Proof.
  intros Ha. pose proof Ha as (Hw & Ht & Hm). unfold step. rewrite Hw.
  destruct e as [[w inside]|k].
  - unfold document_click, element_listener, toggleMenu. simpl.
    destruct w; simpl;
      repeat match goal with
             | |- context [if ?b then _ else _] => destruct b
             end;
      split; auto using closeMenu_active, openMenu_active.
  - unfold document_keydown.
    destruct (_ && _); split; auto using closeMenu_active.
Qed.

Lemma menu_run_active es : forall p,
  active p -> active (run p es) /\ navbar (run p es) = navbar p.
Proof.
  induction es as [|e es IH]; intros p Ha; simpl; [split; auto|].
  destruct (menu_step_active p e Ha) as [Ha' Hn].
  destruct (IH _ Ha') as [Ha'' Hn']. split; [exact Ha''|congruence].
Qed.

Lemma state_of_open p : state_of p = Open <-> is_open p = true.
Proof. unfold state_of. destruct (is_open p); split; congruence. Qed.

Lemma state_of_closed p : state_of p = Closed <-> is_open p = false.
Proof. unfold state_of. destruct (is_open p); split; congruence. Qed.

Lemma step_toggle p :
  active p -> step p (toggle_activation true) = toggleMenu p.
Proof.
  intros (Hw & _). unfold step, toggle_activation. rewrite Hw.
  unfold document_click, element_listener. cbn [where_ inside_navbar negb].
  rewrite andb_false_r. reflexivity.
Qed.

Lemma step_nav_link p inside :
  active p -> step p (nav_link_click inside) = closeMenu p.
Proof.
  intros (Hw & Ht & Hm). unfold step, nav_link_click. rewrite Hw.
  unfold document_click, element_listener. cbn [where_ inside_navbar].
  destruct (closeMenu_closed p Ht Hm) as [Hc _]. rewrite Hc, andb_false_r. reflexivity.
Qed.

Lemma step_cancel_key p :
  active p -> step p cancel_key = if is_open p then closeMenu p else p.
Proof.
  intros (Hw & _). unfold step, cancel_key, document_keydown. rewrite Hw. reflexivity.
Qed.

Lemma step_outside_click p :
  active p -> navbar p = true ->
  step p (outside_click Elsewhere) = if is_open p then closeMenu p else p.
Proof.
  intros (Hw & _) Hn. unfold step, outside_click. rewrite Hw.
  unfold document_click, element_listener. cbn [where_ inside_navbar].
  rewrite Hn. reflexivity.
Qed.

(** C7. With the toggle, the panel and the navbar in the document, the
    toggle inside the navbar and the panel closed in the markup: the menu
    starts closed; in every state [q] reached by any events, the state is
    open or closed; a toggle activation flips it; a nav-link click, the
    Escape key and a click outside the navbar close an open menu and leave
    a closed one closed (the last two leave the page as it is); entering
    open sets, and entering closed clears, the class and ARIA state of both
    the toggle and the panel. *)
Theorem menu_state_machine (p : page) (es : list event) :
  is_Some (toggle p) -> is_Some (menu p) -> navbar p = true -> state_of p = Closed ->
  let q := run (initMobileMenu p) es in
  state_of (initMobileMenu p) = Closed
  /\ (state_of q = Open \/ state_of q = Closed)
  /\ (state_of (step q (toggle_activation true)) = flip (state_of q)
      /\ (state_of q = Closed -> shows_open (step q (toggle_activation true)))
      /\ (state_of q = Open -> shows_closed (step q (toggle_activation true))))
  /\ (forall inside,
        state_of (step q (nav_link_click inside)) = Closed
        /\ shows_closed (step q (nav_link_click inside)))
  /\ (state_of q = Open ->
        state_of (step q cancel_key) = Closed /\ shows_closed (step q cancel_key))
  /\ (state_of q = Closed -> step q cancel_key = q)
  /\ (state_of q = Open ->
        state_of (step q (outside_click Elsewhere)) = Closed
        /\ shows_closed (step q (outside_click Elsewhere)))
  /\ (state_of q = Closed -> step q (outside_click Elsewhere) = q).
Proof.
  intros Ht Hm Hn Hc q.
  destruct (menu_init_active p Ht Hm) as (Ha0 & Ho0 & Hn0).
  destruct (menu_run_active es _ Ha0) as [Ha Hnq]. fold q in Ha, Hnq.
  assert (Hnav : navbar q = true) by congruence.
  pose proof Ha as (_ & Htq & Hmq).
  destruct (closeMenu_closed q Htq Hmq) as [Hcl Hsc].
  destruct (openMenu_open q Htq Hmq) as [Hop Hso].
  rewrite step_toggle, step_cancel_key, step_outside_click by assumption.
  split. { apply state_of_closed. rewrite Ho0. apply state_of_closed, Hc. }
  split. { unfold state_of. destruct (is_open q); auto. }
  split.
  { unfold toggleMenu, state_of. destruct (is_open q) eqn:Hq; simpl.
    - rewrite Hcl. split; [reflexivity|]. split; [discriminate|]. intros _. exact Hsc.
    - rewrite Hop. split; [reflexivity|]. split; [|discriminate]. intros _. exact Hso. }
  split.
  { intros inside. rewrite step_nav_link by assumption.
    split; [apply state_of_closed, Hcl | exact Hsc]. }
  split.
  { intros Hq. apply state_of_open in Hq. rewrite Hq.
    split; [apply state_of_closed, Hcl | exact Hsc]. }
  split.
  { intros Hq. apply state_of_closed in Hq. rewrite Hq. reflexivity. }
  split.
  { intros Hq. apply state_of_open in Hq. rewrite Hq.
    split; [apply state_of_closed, Hcl | exact Hsc]. }
  intros Hq. apply state_of_closed in Hq. rewrite Hq. reflexivity.
Qed.

End MobileMenu.

Lemma menu_state_machine_witness :
  let p := {| Menu.toggle := Some {| classes := ∅; attrs := ∅ |};
              Menu.menu := Some {| classes := ∅; attrs := ∅ |};
              Menu.navbar := true; Menu.wired := false |} in
  let q := Menu.run (Menu.initMobileMenu p) [Menu.toggle_activation true] in
  Menu.state_of (Menu.step q Menu.cancel_key) = Menu.Closed.
Proof.
  intros p q.
  refine (proj1 (proj1 (proj2 (proj2 (proj2 (proj2
    (menu_state_machine p [Menu.toggle_activation true] _ _ _ _))))) _));
    try reflexivity; try (eexists; reflexivity).
Defined.

(** ** The count-up animation *)

Section CounterAnimation.

Import Counter.
Local Open Scope Q_scope.

Variable D : Q.
Hypothesis D_pos : 0 < D.

Lemma Math_round_inject (n : Z) : Math_round (inject_Z n) = n.
Proof.
  unfold Math_round, Qfloor, Qplus, inject_Z. simpl.
  rewrite Z.mul_1_r. symmetry. apply (Z.div_unique _ _ _ 1%Z); lia.
Qed.

Lemma Math_round_comp (x y : Q) : x == y -> Math_round x = Math_round y.
Proof. intros H. unfold Math_round. rewrite H. reflexivity. Qed.




Lemma easeOutQuart_comp (p1 p2 : Q) : p1 == p2 -> easeOutQuart p1 == easeOutQuart p2.
Proof. intros H. unfold easeOutQuart. rewrite H. reflexivity. Qed.

Lemma progress_le_1 (e : Q) : progress_of D e <= 1.
Proof. unfold progress_of. apply Q.le_min_r. Qed.


Lemma progress_before (e : Q) : e <= D -> progress_of D e == e / D.
Proof.
  intros He. unfold progress_of. apply Q.min_l.
  apply Qle_shift_div_r; [exact D_pos | lra].
Qed.

Lemma progress_after (e : Q) : D <= e -> progress_of D e == 1.
Proof.
  intros He. unfold progress_of. apply Q.min_r.
  apply Qle_shift_div_l; [exact D_pos | lra].
Qed.

(** In exact arithmetic the snap to the target agrees with the rounded
    curve, so one formula describes every frame. *)
Lemma shown_round (T : Z) (e : Q) :
  shown D T e = Math_round (easeOutQuart (progress_of D e) * inject_Z T).
Proof.
  unfold shown. destruct (Qlt_le_dec (progress_of D e) 1) as [Hlt|Hge]; [reflexivity|].
  assert (Hp : progress_of D e == 1) by (apply Qle_antisym; [apply progress_le_1 | exact Hge]).
  rewrite <- (Math_round_inject T) at 1. apply Math_round_comp.
  rewrite (easeOutQuart_comp _ _ Hp). unfold easeOutQuart, Qpower. simpl. ring.
Qed.



Lemma shown_start (T : Z) (e : Q) : e == 0 -> shown D T e = 0%Z.
Proof.
  intros He. rewrite shown_round.
  assert (Hp : progress_of D e == 0).
  { rewrite progress_before by (rewrite He; apply Qlt_le_weak, D_pos).
    rewrite He. unfold Qdiv. ring. }
  transitivity (Math_round 0); [|reflexivity].
  apply Math_round_comp. rewrite (easeOutQuart_comp _ _ Hp).
  unfold easeOutQuart, Qpower. simpl. ring.
Qed.


Lemma shown_between (T : Z) (e : Q) : e < D -> shown D T e = spec_value D T e.
Proof.
  intros He. rewrite shown_round. unfold spec_value. apply Math_round_comp.
  assert (Hp : progress_of D e == e / D) by (apply progress_before, Qlt_le_weak, He).
  rewrite (easeOutQuart_comp _ _ Hp). reflexivity.
Qed.

End CounterAnimation.

Section CounterFrames.

Import Counter.
Local Open Scope Q_scope.

Variable cfg : config.
Variable T : Z.
Hypothesis D_pos : 0 < COUNTER_DURATION_MS cfg.
Hypothesis T_nonneg : (0 <= T)%Z.





End CounterFrames.

Section CounterDoubleFacts.

Import CounterDouble.






End CounterDoubleFacts.




(** ** The reveal-once observers *)

Section RevealOnce.

Import Reveal.

Variable o : observer.
Hypothesis effect_target : forall el, action_target (effect o el) = el.

Local Abbreviation ids st := (reg_target <$> targets st).

Lemma NoDup_fmap_filter {A B} (f : A -> B) (P : A -> Prop) `{!forall x, Decision (P x)}
    (l : list A) :
  NoDup (f <$> l) -> NoDup (f <$> filter P l).
Proof.
  induction l as [|x l IH]; simpl; [intros; constructor|].
  rewrite NoDup_cons. intros [Hx Hl].
  rewrite filter_cons. destruct (decide (P x)); [|apply IH, Hl].
  rewrite fmap_cons. apply NoDup_cons. split; [|apply IH, Hl].
  intros Hin. apply Hx. apply list_elem_of_fmap in Hin as (y & -> & Hy).
  apply list_elem_of_filter in Hy as [_ Hy]. apply list_elem_of_fmap_2, Hy.
Qed.

Lemma fired_app el acts a :
  fired el (acts ++ [a]) =
  fired el acts + (if decide (action_target a = el) then 1 else 0).
Proof.
  unfold fired. rewrite filter_app, length_app. f_equal.
  rewrite filter_cons, filter_nil. destruct (decide _); reflexivity.
Qed.

Lemma unobserve_ids el st x :
  x ∈ ids (unobserve el st) <-> x <> el /\ x ∈ ids st.
Proof.
  unfold unobserve. cbn [targets]. rewrite !list_elem_of_fmap. split.
  - intros (r & -> & Hr). apply list_elem_of_filter in Hr as [Hne Hr]. eauto.
  - intros (Hne & r & -> & Hr). exists r. split; [reflexivity|].
    apply list_elem_of_filter. auto.
Qed.

(** One entry of a batch whose targets are distinct and not yet fired. *)
Lemma on_entry_inv st e es :
  reveal_inv st -> NoDup (entry_target <$> (e :: es)) ->
  (forall e', e' ∈ e :: es -> fired (entry_target e') (effects st) = 0) ->
  reveal_inv (on_entry o st e)
  /\ (forall e', e' ∈ es -> fired (entry_target e') (effects (on_entry o st e)) = 0).
Proof.
  intros [Hnd Hf] Hes Hpend. unfold on_entry.
  destruct (entry_isIntersecting e); [|split; [split; assumption|]].
  2:{ intros e' He'. apply Hpend. right. exact He'. }
  rewrite fmap_cons in Hes. apply NoDup_cons in Hes as [Hne Hes].
  assert (He0 : fired (entry_target e) (effects st) = 0) by (apply Hpend; left).
  split; [split|].
  - unfold unobserve. cbn [targets]. apply NoDup_fmap_filter, Hnd.
  - intros el. cbn [unobserve effects]. rewrite fired_app, effect_target.
    destruct (Hf el) as [Hobs Hle]. split.
    + intros Hin. apply unobserve_ids in Hin as [Hneq Hin]. cbn [targets] in Hin.
      rewrite (Hobs Hin). destruct (decide _); [congruence | reflexivity].
    + destruct (decide (entry_target e = el)) as [<-|]; lia.
  - intros e' He'. cbn [unobserve effects]. rewrite fired_app, effect_target.
    rewrite (Hpend e') by (right; exact He').
    destruct (decide (entry_target e = entry_target e')) as [Heq|]; [|reflexivity].
    exfalso. apply Hne. rewrite Heq. apply list_elem_of_fmap_2, He'.
Qed.

Lemma callback_inv es : forall st,
  reveal_inv st -> NoDup (entry_target <$> es) ->
  (forall e, e ∈ es -> fired (entry_target e) (effects st) = 0) ->
  reveal_inv (callback o es st).
Proof.
  induction es as [|e es IH]; intros st Hinv Hnd Hpend; [exact Hinv|].
  destruct (on_entry_inv st e es Hinv Hnd Hpend) as [Hinv' Hpend'].
  unfold callback. cbn [fold_left]. apply IH; [exact Hinv' | | exact Hpend'].
  rewrite fmap_cons in Hnd. apply NoDup_cons in Hnd as [_ Hnd]. exact Hnd.
Qed.

Lemma refresh_ids f (regs : list registration) :
  reg_target <$> (refresh o f <$> regs) = reg_target <$> regs.
Proof. rewrite <- list_fmap_compose. reflexivity. Qed.

Lemma queued_ids f (regs : list registration) :
  entry_target <$> queued o f regs =
  reg_target <$> filter (fun r => changed o f r = true) regs.
Proof. unfold queued. rewrite <- list_fmap_compose. reflexivity. Qed.

Lemma render_inv st f : reveal_inv st -> reveal_inv (render o st f).
Proof.
  intros [Hnd Hf]. unfold render. apply callback_inv.
  - split; cbn [targets effects]; rewrite refresh_ids; assumption.
  - rewrite queued_ids. apply NoDup_fmap_filter, Hnd.
  - intros e He. cbn [effects]. apply (Hf (entry_target e)).
    apply (list_elem_of_fmap_2 entry_target) in He. rewrite queued_ids in He.
    apply list_elem_of_fmap in He as (r & -> & Hr).
    apply list_elem_of_filter in Hr as [_ Hr]. apply list_elem_of_fmap_2, Hr.
Qed.

Lemma is_observed_false el (regs : list registration) :
  is_observed el regs = false -> el ∉ reg_target <$> regs.
Proof.
  unfold is_observed. intros Hex Hin.
  apply list_elem_of_fmap in Hin as (r & -> & Hr).
  apply list_elem_of_In in Hr.
  assert (Ht : existsb (fun r0 => Nat.eqb (reg_target r0) (reg_target r)) regs = true).
  { apply existsb_exists. exists r. split; [exact Hr | apply Nat.eqb_refl]. }
  congruence.
Qed.

Lemma observe_inv el st :
  reveal_inv st -> effects st = [] -> reveal_inv (observe el st) /\ effects (observe el st) = [].
Proof.
  intros [Hnd Hf] He. unfold observe.
  destruct (is_observed el (targets st)) eqn:Hobs; [split; [split|]; assumption|].
  split; [|exact He]. split; cbn [targets effects].
  - rewrite fmap_app. apply NoDup_app. split; [exact Hnd|]. split.
    + intros x Hx Hx'. apply list_elem_of_singleton in Hx'. subst x.
      revert Hx. apply is_observed_false, Hobs.
    + apply NoDup_singleton.
  - intros x. rewrite He. unfold fired. simpl. split; [reflexivity | lia].
Qed.

Lemma reveal_init_inv els : reveal_inv (init els).
Proof.
  unfold init.
  assert (H : forall st, reveal_inv st -> effects st = [] ->
              reveal_inv (fold_left (fun st el => observe el st) els st)).
  { induction els as [|el els IH]; intros st Hinv He; [exact Hinv|].
    destruct (observe_inv el st Hinv He) as [Hinv' He'].
    cbn [fold_left]. apply IH; assumption. }
  apply H; [|reflexivity].
  split; [constructor|]. intros el. unfold fired. simpl. split; [reflexivity | lia].
Qed.

Lemma reveal_run_inv els fs : reveal_inv (run o els fs).
Proof.
  unfold run. generalize (init els) (reveal_init_inv els).
  induction fs as [|f fs IH]; intros st Hinv; [exact Hinv|].
  cbn [fold_left]. apply IH, render_inv, Hinv.
Qed.

Lemma effect_at_most_once els fs el :
  fired el (effects (run o els fs)) <= 1
  /\ (observed el (run o els fs) -> fired el (effects (run o els fs)) = 0).
Proof.
  destruct (reveal_run_inv els fs) as [_ Hf]. destruct (Hf el) as [Hobs Hle].
  split; [exact Hle | exact Hobs].
Qed.

End RevealOnce.

(** C5. For the counter observer and for the fade observer, whatever nodes
    are observed and whatever the visibility of each node in each rendering
    frame, the one-time effect is performed at most once on every node, and
    a node that has had its effect is no longer observed. *)
Theorem reveal_fires_at_most_once (els : list Reveal.node) (fs : list Reveal.frame)
    (el : Reveal.node) :
  let c := Reveal.run Reveal.counter_observer els fs in
  let a := Reveal.run Reveal.fade_observer els fs in
  (Reveal.fired el (Reveal.effects c) <= 1
   /\ (Reveal.fired el (Reveal.effects c) = 1 -> ~ Reveal.observed el c))
  /\ (Reveal.fired el (Reveal.effects a) <= 1
      /\ (Reveal.fired el (Reveal.effects a) = 1 -> ~ Reveal.observed el a)).
Proof.
  intros c a.
  destruct (effect_at_most_once Reveal.counter_observer (fun _ => eq_refl) els fs el)
    as [Hc1 Hc2].
  destruct (effect_at_most_once Reveal.fade_observer (fun _ => eq_refl) els fs el)
    as [Ha1 Ha2].
  fold c in Hc1, Hc2. fold a in Ha1, Ha2.
  split; (split; [assumption|]); intros H1 Hobs.
  - rewrite (Hc2 Hobs) in H1. discriminate.
  - rewrite (Ha2 Hobs) in H1. discriminate.
Qed.

Lemma reveal_fires_at_most_once_witness :
  let f : Reveal.frame := fun n =>
    {| Reveal.isIntersecting := Nat.eqb n 1; Reveal.intersectionRatio := 1 |} in
  ~ Reveal.observed 1 (Reveal.run Reveal.counter_observer [1; 2] [f; f]).
Proof.
  intros f.
  apply (proj2 (proj1 (reveal_fires_at_most_once [1; 2] [f; f] 1))).
  reflexivity.
Defined.

(** ** The portfolio filter *)

Section PortfolioFilter.

Import Portfolio.

Lemma deactivate_inactive t :
  ("portfolio-tab--active" ∉ classes (deactivate t))
  /\ getAttribute "aria-selected" (deactivate t) = Some "false".
Proof.
  unfold deactivate, getAttribute. simpl. split.
  - apply classList_remove_not_elem.
  - apply lookup_insert_eq.
Qed.

Lemma activate_active t : is_active (activate t).
Proof.
  unfold is_active, activate, getAttribute. simpl. split.
  - apply classList_add_elem.
  - apply lookup_insert_eq.
Qed.

Lemma show_or_hide_shown filter item :
  is_shown (show_or_hide filter item) <-> matches filter item = true.
Proof.
  unfold show_or_hide, is_shown. destruct (matches filter item); simpl.
  - split; [reflexivity|]. intros _. apply classList_remove_not_elem.
  - split; [|discriminate]. intros H. exfalso. apply H, classList_add_elem.
Qed.

Lemma show_or_hide_category filter item :
  getAttribute "data-category" (show_or_hide filter item)
  = getAttribute "data-category" item.
Proof. unfold show_or_hide. destruct (matches filter item); reflexivity. Qed.

Lemma matches_all item : matches (Some "all") item = true.
Proof. reflexivity. Qed.

Lemma matches_tag filter item :
  filter <> Some "all" ->
  matches filter item = true <-> getAttribute "data-category" item = filter.
Proof.
  intros Hne. unfold matches.
  rewrite (bool_decide_eq_false_2 _ Hne). simpl. apply bool_decide_eq_true.
Qed.

Lemma click_wired ts its i tab :
  its <> [] -> ts !! i = Some tab ->
  click i (initPortfolioFilter (markup ts its)) =
  {| tabs := alter activate i (deactivate <$> ts);
     items := show_or_hide (getAttribute "data-filter" tab) <$> its;
     wired := true |}.
Proof.
  intros Hits Hi. unfold initPortfolioFilter, markup. cbn [tabs items].
  destruct ts as [|t0 ts']; [discriminate|].
  destruct its as [|it0 its']; [congruence|].
  unfold click. cbn [wired]. unfold on_click. cbn [tabs items wired].
  rewrite Hi. reflexivity.
Qed.

(** C6. With tabs and items in the document, after a click on the tab at
    position [i]: every item is shown if the tab's tag is "all"; otherwise
    an item is shown exactly when its category tag equals the tab's tag;
    and a tab carries the active class and [aria-selected="true"] exactly
    when it is the clicked one. *)
Theorem portfolio_filter_selection (ts its : list element) (i : nat) (tab : element) :
  its <> [] -> ts !! i = Some tab ->
  let filter := getAttribute "data-filter" tab in
  let p' := click i (initPortfolioFilter (markup ts its)) in
  (length (items p') = length its /\ length (tabs p') = length ts)
  /\ (forall k item, its !! k = Some item ->
        exists item', items p' !! k = Some item'
          /\ getAttribute "data-category" item' = getAttribute "data-category" item
          /\ (filter = Some "all" -> is_shown item')
          /\ (filter <> Some "all" ->
              (is_shown item' <-> getAttribute "data-category" item = filter)))
  /\ (forall j t', tabs p' !! j = Some t' ->
        (is_active t' <-> j = i)
        /\ (("portfolio-tab--active" ∈ classes t') <-> j = i)
        /\ (getAttribute "aria-selected" t' = Some "true" <-> j = i))
  /\ (exists t', tabs p' !! i = Some t' /\ is_active t').
Proof.
  intros Hits Hi filter p'. unfold p'. rewrite (click_wired ts its i tab Hits Hi).
  cbn [tabs items]. fold filter.
  split. { rewrite length_fmap, length_alter, length_fmap. split; reflexivity. }
  split.
  { intros k item Hk. exists (show_or_hide filter item).
    split; [rewrite list_lookup_fmap, Hk; reflexivity|].
    split; [apply show_or_hide_category|].
    split.
    - intros ->. apply show_or_hide_shown, matches_all.
    - intros Hne. rewrite show_or_hide_shown. apply matches_tag, Hne. }
  split.
  { intros j t' Hj. destruct (decide (j = i)) as [->|Hne].
    - rewrite list_lookup_alter_eq, list_lookup_fmap, Hi in Hj.
      simpl in Hj. injection Hj as <-.
      destruct (activate_active (deactivate tab)) as [Hc Ha].
      repeat split; auto.
    - rewrite list_lookup_alter_ne, list_lookup_fmap in Hj by congruence.
      destruct (ts !! j) as [t|]; [|discriminate]. simpl in Hj. injection Hj as <-.
      destruct (deactivate_inactive t) as [Hc Ha].
      unfold is_active. rewrite Ha.
      repeat split; try (intros; contradiction); try (intros; congruence).
      intros [Hin _]. contradiction. }
  exists (activate (deactivate tab)). split; [|apply activate_active].
  rewrite list_lookup_alter_eq, list_lookup_fmap, Hi. reflexivity.
Qed.

End PortfolioFilter.

Lemma portfolio_filter_selection_witness :
  let tab tag := {| classes := ∅; attrs := {[ "data-filter" := tag ]} |} in
  let item tag := {| classes := ∅; attrs := {[ "data-category" := tag ]} |} in
  exists t', Portfolio.tabs
               (Portfolio.click 1
                  (Portfolio.initPortfolioFilter
                     (Portfolio.markup [tab "all"; tab "solar"] [item "solar"; item "wiring"])))
             !! 1 = Some t'
             /\ Portfolio.is_active t'.
Proof.
  intros tab item.
  apply (proj2 (proj2 (proj2
    (portfolio_filter_selection [tab "all"; tab "solar"] [item "solar"; item "wiring"]
       1 (tab "solar") ltac:(discriminate) eq_refl)))).
Defined.

(** ** The contact form *)

Section ContactValidation.

Import JsString Contact.

Lemma isEmpty_trim fe : isEmpty fe = true <-> trim (value fe) = "".
Proof.
  unfold isEmpty. rewrite orb_true_iff, !String.eqb_eq. split.
  - intros [H|H]; [exact H | rewrite H; reflexivity].
  - auto.
Qed.

Lemma isEmpty_not_trim fe : isEmpty fe = false <-> trim (value fe) <> "".
Proof.
  rewrite <- isEmpty_trim. destruct (isEmpty fe); split; congruence.
Qed.


Lemma validateField_fst f e m p : fst (validateField f e m p) = passes f e p.
Proof.
  unfold validateField, passes.
  destruct (doc p !! f); [destruct (doc p !! e)|]; reflexivity.
Qed.

Lemma alter_value (g : felement -> felement) k (d : gmap string felement) id :
  (forall x, value (g x) = value x) ->
  value <$> alter g k d !! id = value <$> d !! id.
Proof.
  intros Hg. destruct (decide (k = id)) as [->|Hne].
  - rewrite lookup_alter_eq. destruct (d !! id); simpl; [rewrite Hg|]; reflexivity.
  - rewrite lookup_alter_ne by exact Hne. reflexivity.
Qed.

Lemma same_inputs_refl p : same_inputs p p.
Proof. unfold same_inputs. auto 10. Qed.

Lemma same_inputs_trans p q r : same_inputs p q -> same_inputs q r -> same_inputs p r.
Proof.
  unfold same_inputs. intros (?&?&?&?&?&Hv) (?&?&?&?&?&Hv').
  do 5 (split; [congruence|]). intros id. rewrite Hv', Hv. reflexivity.
Qed.

Lemma validateField_same_inputs f e m p : same_inputs p (snd (validateField f e m p)).
Proof.
  unfold validateField.
  destruct (doc p !! f) as [fe|]; [destruct (doc p !! e)|];
    try apply same_inputs_refl.
  unfold same_inputs, with_doc. cbn [snd form feedback submitBtn timers log doc].
  do 5 (split; [reflexivity|]).
  intros id. rewrite !alter_value by reflexivity. reflexivity.
Qed.

Lemma passes_same_inputs f e p p' : same_inputs p p' -> passes f e p' = passes f e p.
Proof.
  intros (_&_&_&_&_&Hv). unfold passes.
  pose proof (Hv f) as Hf. pose proof (Hv e) as He.
  destruct (doc p' !! f), (doc p !! f), (doc p' !! e), (doc p !! e);
    simpl in *; try congruence.
  unfold isEmpty. congruence.
Qed.

(** The four calls of [validateForm], each seen on the page as it was. *)
Lemma validateForm_spec p :
  fst (validateForm p) =
    passes "clientName" "nameError" p && passes "clientPhone" "phoneError" p
    && passes "serviceType" "serviceError" p && passes "clientArea" "areaError" p
  /\ same_inputs p (snd (validateForm p)).
Proof.
  unfold validateForm.
  pose proof (validateField_fst "clientName" "nameError" "Please enter your name." p) as F1.
  pose proof (validateField_same_inputs "clientName" "nameError" "Please enter your name." p) as S1.
  destruct (validateField "clientName" _ _ p) as [ok1 p1]. cbn [fst snd] in F1, S1.
  pose proof (validateField_fst "clientPhone" "phoneError" "Please enter your phone number." p1) as F2.
  pose proof (validateField_same_inputs "clientPhone" "phoneError" "Please enter your phone number." p1) as S2.
  destruct (validateField "clientPhone" _ _ p1) as [ok2 p2]. cbn [fst snd] in F2, S2.
  pose proof (validateField_fst "serviceType" "serviceError" "Please select a service type." p2) as F3.
  pose proof (validateField_same_inputs "serviceType" "serviceError" "Please select a service type." p2) as S3.
  destruct (validateField "serviceType" _ _ p2) as [ok3 p3]. cbn [fst snd] in F3, S3.
  pose proof (validateField_fst "clientArea" "areaError" "Please enter your area or suburb." p3) as F4.
  pose proof (validateField_same_inputs "clientArea" "areaError" "Please enter your area or suburb." p3) as S4.
  destruct (validateField "clientArea" _ _ p3) as [ok4 p4]. cbn [fst snd] in F4, S4.
  cbn [fst snd].
  assert (S12 : same_inputs p p2) by (eapply same_inputs_trans; eassumption).
  assert (S13 : same_inputs p p3) by (eapply same_inputs_trans; eassumption).
  split; [|eapply same_inputs_trans; eassumption].
  rewrite F1, F2, F3, F4.
  rewrite (passes_same_inputs _ _ p p1 S1), (passes_same_inputs _ _ p p2 S12),
    (passes_same_inputs _ _ p p3 S13).
  reflexivity.
Qed.

Lemma validateForm_passes p :
  fst (validateForm p) = true <->
  forall f e m, (f, e, m) ∈ required -> passes f e p = true.
Proof.
  destruct (validateForm_spec p) as [-> _]. rewrite !andb_true_iff. split.
  - intros [[[H1 H2] H3] H4] f e m Hin. unfold required in Hin.
    repeat (apply elem_of_cons in Hin as [Hin|Hin]; [injection Hin as -> -> ->; assumption|]).
    apply elem_of_nil in Hin. contradiction.
  - intros H. repeat split; eapply H; unfold required.
    + apply elem_of_cons. left. reflexivity.
    + do 1 (apply elem_of_cons; right). apply elem_of_cons. left. reflexivity.
    + do 2 (apply elem_of_cons; right). apply elem_of_cons. left. reflexivity.
    + do 3 (apply elem_of_cons; right). apply elem_of_cons. left. reflexivity.
Qed.

Lemma validateField_marks f e m p fe :
  doc p !! f = Some fe -> is_Some (doc p !! e) -> f <> e ->
  marked (snd (validateField f e m p)) f e m fe.
Proof.
  intros Hf [ee He] Hne. unfold validateField, marked. rewrite Hf, He.
  cbn [snd with_doc doc].
  rewrite lookup_alter_eq, lookup_alter_ne, Hf by congruence.
  rewrite lookup_alter_ne, lookup_alter_eq, He by congruence.
  eexists _, _. split; [reflexivity|]. split; [reflexivity|].
  cbn [set_borderColor set_textContent value borderColor textContent]. auto.
Qed.

Lemma validateField_keeps f e m p id :
  id <> f -> id <> e -> doc (snd (validateField f e m p)) !! id = doc p !! id.
Proof.
  intros Hf He. unfold validateField.
  destruct (doc p !! f); [destruct (doc p !! e)|]; try reflexivity.
  cbn [snd with_doc doc]. rewrite !lookup_alter_ne by congruence. reflexivity.
Qed.

Lemma marked_keeps p q f e m fe :
  marked p f e m fe -> doc q !! f = doc p !! f -> doc q !! e = doc p !! e ->
  marked q f e m fe.
Proof.
  intros (fe' & ee' & H1 & H2 & H3) Hf He. exists fe', ee'.
  rewrite Hf, He. auto.
Qed.

Lemma validateForm_snd p :
  snd (validateForm p) =
  snd (validateField "clientArea" "areaError" "Please enter your area or suburb."
    (snd (validateField "serviceType" "serviceError" "Please select a service type."
      (snd (validateField "clientPhone" "phoneError" "Please enter your phone number."
        (snd (validateField "clientName" "nameError" "Please enter your name." p))))))).
Proof.
  unfold validateForm.
  destruct (validateField "clientName" _ _ p) as [ok1 p1]. cbn [snd].
  destruct (validateField "clientPhone" _ _ p1) as [ok2 p2]. cbn [snd].
  destruct (validateField "serviceType" _ _ p2) as [ok3 p3]. cbn [snd].
  destruct (validateField "clientArea" _ _ p3) as [ok4 p4]. reflexivity.
Qed.

(** After the whole pass every required field carries the marks of its
    own validation. *)
Lemma validateForm_marks p f e m fe :
  (f, e, m) ∈ required -> doc p !! f = Some fe -> is_Some (doc p !! e) ->
  marked (snd (validateForm p)) f e m fe.
Proof.
  intros Hin Hf He. rewrite validateForm_snd. unfold required in Hin.
  repeat (apply elem_of_cons in Hin as [Hin|Hin];
          [injection Hin as -> -> ->|]); [| | | |apply elem_of_nil in Hin; contradiction].
  - do 3 (eapply marked_keeps; [|apply validateField_keeps; discriminate
                                |apply validateField_keeps; discriminate]).
    apply validateField_marks; [assumption | assumption | discriminate].
  - do 2 (eapply marked_keeps; [|apply validateField_keeps; discriminate
                                |apply validateField_keeps; discriminate]).
    apply validateField_marks; [| | discriminate];
      rewrite !validateField_keeps by discriminate; assumption.
  - do 1 (eapply marked_keeps; [|apply validateField_keeps; discriminate
                                |apply validateField_keeps; discriminate]).
    apply validateField_marks; [| | discriminate];
      rewrite !validateField_keeps by discriminate; assumption.
  - apply validateField_marks; [| | discriminate];
      rewrite !validateField_keeps by discriminate; assumption.
Qed.

Lemma on_submit_invalid cfg r p :
  form p = true -> fst (validateForm p) = false ->
  on_submit cfg r p = snd (validateForm p).
Proof.
  intros Hform Hv. unfold on_submit. rewrite Hform.
  destruct (validateForm p) as [valid p1]. cbn [fst snd] in *. subst valid. reflexivity.
Qed.

Lemma on_submit_valid cfg r p :
  form p = true -> fst (validateForm p) = true ->
  on_submit cfg r p =
    let p2 := disable_submit (snd (validateForm p)) in
    if String.eqb (FORM_ACTION_URL cfg) "" then
      setTimeout ReenableSubmit 3000 (fallbackToWhatsApp cfg p2)
    else
      reenable_submit
        match r with
        | Ok => showFeedback sent_notice "success"
                  (form_reset (emit (Fetch (FORM_ACTION_URL cfg)) p2))
        | NotOk => fallbackToWhatsApp cfg (emit (Fetch (FORM_ACTION_URL cfg)) p2)
        | NetworkError =>
            fallbackToWhatsApp cfg (emit ConsoleWarn (emit (Fetch (FORM_ACTION_URL cfg)) p2))
        end.
Proof.
  intros Hform Hv. unfold on_submit. rewrite Hform.
  destruct (validateForm p) as [valid p1]. cbn [fst snd] in *. subst valid. reflexivity.
Qed.

Lemma trimmed_value_same id p q :
  value <$> doc q !! id = value <$> doc p !! id -> trimmed_value id q = trimmed_value id p.
Proof.
  intros H. unfold trimmed_value.
  destruct (doc q !! id), (doc p !! id); simpl in H; congruence.
Qed.

Lemma raw_value_same id p q :
  value <$> doc q !! id = value <$> doc p !! id -> raw_value id q = raw_value id p.
Proof.
  intros H. unfold raw_value.
  destruct (doc q !! id), (doc p !! id); simpl in H; congruence.
Qed.


Lemma fallback_frame cfg q :
  doc (fallbackToWhatsApp cfg q) = doc q
  /\ submitBtn (fallbackToWhatsApp cfg q) = submitBtn q
  /\ timers (fallbackToWhatsApp cfg q)
     = (timers q ++ [(1500%Z, OpenWindow (waUrl cfg q))])%list
  /\ log (fallbackToWhatsApp cfg q) = (log q ++ fallback_notices q)%list
  /\ feedback (fallbackToWhatsApp cfg q) =
       (fun _ => {| fb_textContent := fallback_notice;
                    fb_className := "form-feedback success" |}) <$> feedback q.
Proof.
  unfold fallbackToWhatsApp, showFeedback, fallback_notices, setTimeout, emit.
  destruct (feedback q) eqn:Hfb; cbn [doc submitBtn timers log feedback fmap option_fmap option_map];
    rewrite ?Hfb, ?app_nil_r; auto 10.
Qed.

(** C2, as amended. With every required input and error slot in the document, a
    submission in which some required field is empty after trimming calls
    no endpoint, schedules no deep link and shows no notice, and leaves
    every required field marked exactly by its own emptiness: an empty
    field gets the red border and its message, a filled one has both
    cleared. *)
Theorem empty_required_field_blocks_submission (cfg : config) (r : response) (p : page) :
  form p = true -> well_formed p ->
  (exists f e m fe, (f, e, m) ∈ required /\ doc p !! f = Some fe /\ trim (value fe) = "") ->
  let p' := on_submit cfg r p in
  (log p' = log p /\ timers p' = timers p
   /\ submitBtn p' = submitBtn p /\ feedback p' = feedback p)
  /\ forall f e m fe, (f, e, m) ∈ required -> doc p !! f = Some fe ->
       exists fe' ee', doc p' !! f = Some fe' /\ doc p' !! e = Some ee'
         /\ value fe' = value fe
         /\ (trim (value fe) = "" -> borderColor fe' = "#FF5555" /\ textContent ee' = m)
         /\ (trim (value fe) <> "" -> borderColor fe' = "" /\ textContent ee' = "").
Proof.
  intros Hform Hwf (f0 & e0 & m0 & fe0 & Hin0 & Hf0 & Hempty) p'.
  assert (Hinvalid : fst (validateForm p) = false).
  { destruct (fst (validateForm p)) eqn:Hv; [|reflexivity].
    pose proof (proj1 (validateForm_passes p) Hv f0 e0 m0 Hin0) as Hpass.
    unfold passes in Hpass. rewrite Hf0 in Hpass.
    destruct (Hwf f0 e0 m0 Hin0) as [_ [ee He]]. rewrite He in Hpass.
    apply isEmpty_trim in Hempty. rewrite Hempty in Hpass. discriminate. }
  unfold p'. rewrite (on_submit_invalid cfg r p Hform Hinvalid).
  destruct (validateForm_spec p) as [_ (_ & Hfb & Hbtn & Htm & Hlog & _)].
  split; [auto|].
  intros f e m fe Hin Hf.
  destruct (validateForm_marks p f e m fe Hin Hf (proj2 (Hwf f e m Hin)))
    as (fe' & ee' & H1 & H2 & H3 & H4 & H5).
  exists fe', ee'. split; [exact H1|]. split; [exact H2|]. split; [exact H3|].
  split.
  - intros Ht. apply isEmpty_trim in Ht. rewrite Ht in H4, H5. auto.
  - intros Ht. apply isEmpty_not_trim in Ht. rewrite Ht in H4, H5. auto.
Qed.


End ContactValidation.

Lemma empty_required_field_blocks_submission_witness :
  let p := Contact.sample_page " " "0771234567" "solar" "Harare" in
  Contact.log (Contact.on_submit CONFIG Contact.Ok p) = Contact.log p
  /\ Contact.timers (Contact.on_submit CONFIG Contact.Ok p) = Contact.timers p.
Proof.
  intros p.
  destruct (empty_required_field_blocks_submission CONFIG Contact.Ok p) as [(Hl & Ht & _) _].
  - reflexivity.
  - intros f e m Hin. unfold Contact.required in Hin.
    repeat (apply elem_of_cons in Hin as [Hin|Hin];
            [injection Hin as -> -> ->; split; eexists; reflexivity|]).
    apply elem_of_nil in Hin. contradiction.
  - exists "clientName", "nameError", "Please enter your name.", (Contact.input " ").
    split; [apply elem_of_cons; left; reflexivity|]. split; reflexivity.
  - split; assumption.
Defined.

(** C2 as stated fails when an error slot is missing: with the name empty
    and no [#nameError] in the document, the field is not checked, the
    submission goes ahead and the deep link is opened. *)
Lemma empty_field_without_error_slot_submits :
  let q := Contact.sample_page "" "0771234567" "solar" "Harare" in
  let p := Contact.with_doc (delete "nameError" (Contact.doc q)) q in
  (Contact.value <$> Contact.doc p !! "clientName" = Some "" /\ JsString.trim "" = "")
  /\ Contact.timers (Contact.on_submit CONFIG Contact.Ok p)
     = [(1500%Z, Contact.OpenWindow (Contact.waUrl CONFIG p));
        (3000%Z, Contact.ReenableSubmit)]
  /\ Contact.log (Contact.settle (Contact.on_submit CONFIG Contact.Ok p))
     = [Contact.Notice Contact.fallback_notice "success";
        Contact.WindowOpen (Contact.waUrl CONFIG p)].
Proof.
  intros q p. split; [split; reflexivity|]. split; vm_compute; reflexivity.
Qed.


(** ** The submission flow *)

Section ContactSubmission.

Import JsString Contact.

Lemma string_app_assoc (s1 s2 s3 : string) : (s1 ++ s2) ++ s3 = s1 ++ s2 ++ s3.
Proof.
  induction s1 as [|a s1 IH]; [reflexivity|].
  change (String a ((s1 ++ s2) ++ s3) = String a (s1 ++ s2 ++ s3)).
  f_equal. exact IH.
Qed.

Lemma string_app_nil_r (s : string) : s ++ "" = s.
Proof.
  induction s as [|a s IH]; [reflexivity|].
  change (String a (s ++ "") = String a s). f_equal. exact IH.
Qed.


Lemma fire_submitBtn q t :
  submitBtn (fire q t) = submitBtn q \/ submitBtn (fire q t) = (fun _ => restored) <$> submitBtn q.
Proof. unfold fire. destruct (snd t); [left|right]; reflexivity. Qed.

Lemma fold_fire_restored l : forall q,
  submitBtn q = Some restored -> submitBtn (fold_left fire l q) = Some restored.
Proof.
  induction l as [|t l IH]; intros q Hq; [exact Hq|].
  cbn [fold_left]. apply IH.
  destruct (fire_submitBtn q t) as [H|H]; rewrite H, Hq; reflexivity.
Qed.

Lemma fold_fire_reenable l : forall q d,
  is_Some (submitBtn q) -> (d, ReenableSubmit) ∈ l ->
  submitBtn (fold_left fire l q) = Some restored.
Proof.
  induction l as [|t l IH]; intros q d Hq Hin; [apply elem_of_nil in Hin; contradiction|].
  cbn [fold_left]. apply elem_of_cons in Hin as [<-|Hin].
  - apply fold_fire_restored. unfold fire. cbn [snd reenable_submit with_submitBtn submitBtn].
    destruct Hq as [b ->]. reflexivity.
  - apply (IH _ d); [|exact Hin].
    destruct Hq as [b Hb]. destruct (fire_submitBtn q t) as [H|H]; rewrite H, Hb; eauto.
Qed.

Lemma schedule_elem t u l : u ∈ schedule t l <-> u = t \/ u ∈ l.
Proof.
  induction l as [|v l IH]; cbn [schedule].
  - rewrite list_elem_of_singleton, elem_of_nil. tauto.
  - destruct (Z.ltb (fst t) (fst v)).
    + rewrite elem_of_cons. tauto.
    + rewrite !elem_of_cons, IH. tauto.
Qed.

Lemma by_delay_elem u l : u ∈ by_delay l <-> u ∈ l.
Proof.
  unfold by_delay.
  assert (H : forall acc, u ∈ fold_left (fun acc t => schedule t acc) l acc <-> u ∈ l \/ u ∈ acc).
  { induction l as [|t l IH]; intros acc; cbn [fold_left].
    - rewrite elem_of_nil. tauto.
    - rewrite IH, schedule_elem, elem_of_cons. tauto. }
  rewrite H, elem_of_nil. tauto.
Qed.

Lemma on_submit_restores (cfg : config) (r : response) (p : page) (b : button) :
  form p = true -> fst (validateForm p) = true -> submitBtn p = Some b ->
  let p' := on_submit cfg r p in
  submitBtn (settle p') = Some restored
  /\ (FORM_ACTION_URL cfg <> "" -> submitBtn p' = Some restored)
  /\ (FORM_ACTION_URL cfg = "" ->
      submitBtn p' = Some {| disabled := true; label := Text "Sending..." |}
      /\ (3000%Z, ReenableSubmit) ∈ timers p').
Proof.
  intros Hform Hvalid Hb p'.
  destruct (validateForm_spec p) as [_ (_ & _ & Hbtn & _)].
  set (p2 := disable_submit (snd (validateForm p))).
  assert (Hp2 : submitBtn p2 = Some {| disabled := true; label := Text "Sending..." |}).
  { unfold p2, disable_submit, with_submitBtn. cbn [submitBtn]. rewrite Hbtn, Hb. reflexivity. }
  assert (Hp' : (FORM_ACTION_URL cfg <> "" -> submitBtn p' = Some restored)
                /\ (FORM_ACTION_URL cfg = "" ->
                    submitBtn p' = Some {| disabled := true; label := Text "Sending..." |}
                    /\ (3000%Z, ReenableSubmit) ∈ timers p')).
  { unfold p'. rewrite (on_submit_valid cfg r p Hform Hvalid). cbv zeta. fold p2.
    split.
    - intros Hurl. apply String.eqb_neq in Hurl. rewrite Hurl.
      unfold reenable_submit, with_submitBtn. cbn [submitBtn].
      assert (Hsome : forall q, submitBtn q = submitBtn p2 ->
                (fun _ => restored) <$> submitBtn q = Some restored)
        by (intros q ->; rewrite Hp2; reflexivity).
      destruct r.
      + apply Hsome. unfold showFeedback, form_reset, with_doc, emit.
        destruct (feedback _); reflexivity.
      + apply Hsome. destruct (fallback_frame cfg (emit (Fetch (FORM_ACTION_URL cfg)) p2))
          as (_ & -> & _). reflexivity.
      + apply Hsome.
        destruct (fallback_frame cfg (emit ConsoleWarn (emit (Fetch (FORM_ACTION_URL cfg)) p2)))
          as (_ & -> & _). reflexivity.
    - intros ->. cbn [String.eqb]. unfold setTimeout. cbn [submitBtn timers].
      destruct (fallback_frame cfg p2) as (_ & -> & _). split; [exact Hp2|].
      apply elem_of_app. right. apply list_elem_of_singleton. reflexivity. }
  destruct Hp' as [Hset Hunset].
  split; [|split; [exact Hset | exact Hunset]].
  unfold settle.
  destruct (String.eqb_spec (FORM_ACTION_URL cfg) "") as [Hurl|Hurl].
  - destruct (Hunset Hurl) as [Hdis Hin].
    apply (fold_fire_reenable _ _ 3000%Z).
    + cbn [submitBtn]. rewrite Hdis. eauto.
    + apply by_delay_elem, Hin.
  - apply fold_fire_restored. cbn [submitBtn]. apply Hset, Hurl.
Qed.



End ContactSubmission.

(** ** The submit handler when the deep link cannot be built *)

Section ContactExceptions.

Import JsString Contact ContactThrow.

Lemma waText_same p q :
  (forall id, value <$> doc q !! id = value <$> doc p !! id) -> waText q = waText p.
Proof.
  intros H. unfold waText.
  rewrite !(trimmed_value_same _ p q), (raw_value_same _ p q) by apply H.
  reflexivity.
Qed.

Lemma fallbackToWhatsApp_t_same cfg p q :
  (forall id, value <$> doc q !! id = value <$> doc p !! id) ->
  fallbackToWhatsApp_t cfg q =
    if has_lone_surrogate (waText p) then None else Some (fallbackToWhatsApp cfg q).
Proof. intros H. unfold fallbackToWhatsApp_t. rewrite (waText_same p q H). reflexivity. Qed.

(** The handler on a form that passes validation: on well-formed text it is
    [on_submit] and nothing is thrown; otherwise every call of
    [fallbackToWhatsApp] throws before it has changed anything. *)
Lemma on_submit_t_valid cfg r p :
  form p = true -> fst (validateForm p) = true ->
  on_submit_t cfg r p =
    let p2 := disable_submit (snd (validateForm p)) in
    if has_lone_surrogate (waText p) then
      if String.eqb (FORM_ACTION_URL cfg) "" then (p2, true)
      else
        let p3 := emit (Fetch (FORM_ACTION_URL cfg)) p2 in
        match r with
        | Ok => (reenable_submit (showFeedback sent_notice "success" (form_reset p3)), false)
        | _ => (reenable_submit (emit ConsoleWarn p3), true)
        end
    else (on_submit cfg r p, false).
Proof.
  intros Hform Hv.
  destruct (validateForm_spec p) as [_ (_ & _ & _ & _ & _ & Hval)].
  unfold on_submit_t, on_submit. rewrite Hform.
  destruct (validateForm p) as [valid p1]. cbn [fst snd] in *. subst valid.
  cbn [negb]. unfold on_submit_settled. cbv zeta.
  pose proof (fallbackToWhatsApp_t_same cfg p (disable_submit p1) Hval) as E2.
  pose proof (fallbackToWhatsApp_t_same cfg p
                (emit (Fetch (FORM_ACTION_URL cfg)) (disable_submit p1)) Hval) as E3.
  pose proof (fallbackToWhatsApp_t_same cfg p
                (emit ConsoleWarn (emit (Fetch (FORM_ACTION_URL cfg)) (disable_submit p1)))
                Hval) as E4.
  destruct (has_lone_surrogate (waText p));
    destruct (String.eqb (FORM_ACTION_URL cfg) "");
    [ rewrite E2; reflexivity
    | destruct r; rewrite ?E3; cbn [fst snd]; rewrite ?E4; reflexivity
    | rewrite E2; reflexivity
    | destruct r; rewrite ?E3; cbn [fst snd]; rewrite ?E4; reflexivity ].
Qed.

Lemma fallbackToWhatsApp_t_submitBtn cfg q q' :
  fallbackToWhatsApp_t cfg q = Some q' -> submitBtn q' = submitBtn q.
Proof.
  unfold fallbackToWhatsApp_t. destruct (has_lone_surrogate _); [discriminate|].
  intros [= <-]. apply fallback_frame.
Qed.

Lemma on_submit_settled_restores cfg r q :
  is_Some (submitBtn q) -> submitBtn (fst (on_submit_settled cfg r q)) = Some restored.
Proof.
  intros [bq Hq]. unfold on_submit_settled. cbv zeta. cbn [fst].
  unfold reenable_submit, with_submitBtn. cbn [submitBtn].
  assert (Hsome : forall q0, submitBtn q0 = submitBtn q ->
            (fun _ => restored) <$> submitBtn q0 = Some restored)
    by (intros q0 ->; rewrite Hq; reflexivity).
  assert (Hwarn : forall q0, submitBtn q0 = submitBtn q ->
            (fun _ => restored) <$> submitBtn
              (fst match fallbackToWhatsApp_t cfg (emit ConsoleWarn q0) with
                   | Some q' => (q', false)
                   | None => (emit ConsoleWarn q0, true)
                   end) = Some restored).
  { intros q0 H0. apply Hsome.
    destruct (fallbackToWhatsApp_t cfg (emit ConsoleWarn q0)) as [q'|] eqn:E; cbn [fst].
    - rewrite (fallbackToWhatsApp_t_submitBtn _ _ _ E). exact H0.
    - exact H0. }
  destruct r.
  - cbn [fst snd]. apply Hsome. unfold showFeedback, form_reset, with_doc, emit.
    destruct (feedback _); reflexivity.
  - destruct (fallbackToWhatsApp_t cfg q) as [q'|] eqn:E; cbn [fst snd].
    + apply Hsome. apply (fallbackToWhatsApp_t_submitBtn _ _ _ E).
    + apply Hwarn. reflexivity.
  - cbn [fst snd]. apply Hwarn. reflexivity.
Qed.

(** C9, as amended. After a submission that passed validation the submit
    button is enabled again and carries the label the handler writes, a fixed
    one, whatever the markup's label was. With an endpoint configured this is
    so when the handler ends, in every outcome: a response that is ok, one
    that is not, a rejected request, and an error thrown while the deep link
    is built; and it is so whatever the page has become while the handler
    waited for the request. With no endpoint configured and a deep link that
    can be built,
    the handler ends with the button disabled and [Sending...], the timeout of
    3000 ms is pending, and the button is as above once the pending timeouts
    have expired. *)
Theorem submit_control_restored (cfg : config) (r : response) (p : page) (b : button) :
  form p = true -> fst (validateForm p) = true -> submitBtn p = Some b ->
  let p' := fst (on_submit_t cfg r p) in
  (FORM_ACTION_URL cfg <> "" ->
     submitBtn p' = Some restored /\ submitBtn (settle p') = Some restored)
  /\ (forall q, is_Some (submitBtn q) ->
        submitBtn (fst (on_submit_settled cfg r q)) = Some restored)
  /\ (FORM_ACTION_URL cfg = "" -> has_lone_surrogate (waText p) = false ->
      snd (on_submit_t cfg r p) = false
      /\ submitBtn p' = Some sending
      /\ (3000%Z, ReenableSubmit) ∈ timers p'
      /\ submitBtn (settle p') = Some restored).
Proof.
  intros Hform Hvalid Hb p'. unfold p'.
  assert (Hany : forall q, is_Some (submitBtn q) ->
            submitBtn (fst (on_submit_settled cfg r q)) = Some restored).
  { intros q [bq Hq]. apply on_submit_settled_restores. rewrite Hq. eauto. }
  cut ((FORM_ACTION_URL cfg <> "" ->
          submitBtn (fst (on_submit_t cfg r p)) = Some restored
          /\ submitBtn (settle (fst (on_submit_t cfg r p))) = Some restored)
       /\ (FORM_ACTION_URL cfg = "" -> has_lone_surrogate (waText p) = false ->
            snd (on_submit_t cfg r p) = false
            /\ submitBtn (fst (on_submit_t cfg r p)) = Some sending
            /\ (3000%Z, ReenableSubmit) ∈ timers (fst (on_submit_t cfg r p))
            /\ submitBtn (settle (fst (on_submit_t cfg r p))) = Some restored)).
  { intros [H1 H2]. split; [exact H1 | split; [exact Hany | exact H2]]. }
  destruct (on_submit_restores cfg r p b Hform Hvalid Hb) as (Hsettle & Hset & Hunset).
  destruct (on_submit_restores cfg Ok p b Hform Hvalid Hb) as (_ & Hok & _).
  rewrite (on_submit_t_valid cfg r p Hform Hvalid). cbv zeta.
  split.
  - intros Hurl.
    assert (Hnow : submitBtn
              (fst (if has_lone_surrogate (waText p)
                    then if String.eqb (FORM_ACTION_URL cfg) ""
                         then (disable_submit (snd (validateForm p)), true)
                         else match r with
                              | Ok => (reenable_submit (showFeedback sent_notice "success"
                                         (form_reset (emit (Fetch (FORM_ACTION_URL cfg))
                                            (disable_submit (snd (validateForm p)))))), false)
                              | _ => (reenable_submit (emit ConsoleWarn
                                         (emit (Fetch (FORM_ACTION_URL cfg))
                                            (disable_submit (snd (validateForm p))))), true)
                              end
                    else (on_submit cfg r p, false))) = Some restored).
    { destruct (has_lone_surrogate (waText p)); [|exact (Hset Hurl)].
      pose proof Hurl as Hneq. apply String.eqb_neq in Hneq. rewrite Hneq.
      destruct (validateForm_spec p) as [_ (_ & _ & Hbtn & _)].
      destruct r.
      - specialize (Hok Hurl). rewrite (on_submit_valid cfg Ok p Hform Hvalid) in Hok.
        cbv zeta in Hok. rewrite Hneq in Hok. exact Hok.
      - cbn [fst]. unfold reenable_submit, with_submitBtn, emit, disable_submit.
        cbn [submitBtn]. rewrite Hbtn, Hb. reflexivity.
      - cbn [fst]. unfold reenable_submit, with_submitBtn, emit, disable_submit.
        cbn [submitBtn]. rewrite Hbtn, Hb. reflexivity. }
    split; [exact Hnow|].
    unfold settle. apply fold_fire_restored. cbn [submitBtn]. exact Hnow.
  - intros Hurl Hwf. rewrite Hwf. cbn [fst snd].
    destruct (Hunset Hurl) as [Hdis Hin].
    split; [reflexivity|]. split; [exact Hdis|]. split; [exact Hin | exact Hsettle].
Qed.

(** C9 as stated fails in two ways. The label written back is a fixed one:
    a button that the markup labels [Send] carries another label after a
    submission that succeeded. And with no endpoint configured, as shipped,
    a field holding an unpaired surrogate makes [encodeURIComponent] throw
    where the link is built: the handler ends there, before the timeout that
    enables the button again is set, and the button stays disabled. *)
Lemma submit_control_not_restored :
  (let p := labelled (Text "Send") (sample_page "John" "0771234567" "solar" "Harare") in
   let p' := fst (on_submit_t (with_endpoint "https://formspree.io/f/abc" CONFIG) Ok p) in
   fst (validateForm p) = true
   /\ submitBtn p = Some {| disabled := false; label := Text "Send" |}
   /\ submitBtn p' = Some {| disabled := false; label := send_label |}
   /\ send_label <> Text "Send")
  /\ (let p := sample_page ("John" ++ lone_surrogate) "0771234567" "solar" "Harare" in
      let p' := fst (on_submit_t CONFIG Ok p) in
      fst (validateForm p) = true
      /\ snd (on_submit_t CONFIG Ok p) = true
      /\ submitBtn p' = Some sending
      /\ timers p' = []
      /\ log p' = []
      /\ submitBtn (settle p') = Some sending).
Proof.
  split.
  - cbv zeta. split; [vm_compute; reflexivity|]. split; [reflexivity|].
    split; [vm_compute; reflexivity | discriminate].
  - cbv zeta. repeat split; vm_compute; reflexivity.
Qed.

End ContactExceptions.

Section ContactScenario.

Import JsString Contact.

Variable cfg : config.
Variable p : page.
Hypothesis no_endpoint : FORM_ACTION_URL cfg = "".
Hypothesis has_form : form p = true.
Hypothesis has_feedback : is_Some (feedback p).
Hypothesis no_timers : timers p = [].
Hypothesis name_John : value <$> doc p !! "clientName" = Some "John".
Hypothesis phone_0771234567 : value <$> doc p !! "clientPhone" = Some "0771234567".
Hypothesis service_solar : value <$> doc p !! "serviceType" = Some "solar".
Hypothesis area_Harare : value <$> doc p !! "clientArea" = Some "Harare".







End ContactScenario.




Lemma submit_control_restored_witness :
  let cfg := ContactThrow.with_endpoint "https://formspree.io/f/abc" CONFIG in
  let p := ContactThrow.labelled (Contact.Text "Send")
             (Contact.sample_page ("John" ++ ContactThrow.lone_surrogate)
                "0771234567" "solar" "Harare") in
  snd (ContactThrow.on_submit_t cfg Contact.NotOk p) = true
  /\ Contact.submitBtn (fst (ContactThrow.on_submit_t cfg Contact.NotOk p))
     = Some Contact.restored.
Proof.
  intros cfg p. split; [vm_compute; reflexivity|].
  apply (proj1 (proj1 (submit_control_restored cfg Contact.NotOk p
                         {| Contact.disabled := false; Contact.label := Contact.Text "Send" |}
                         eq_refl eq_refl eq_refl)
                  ltac:(discriminate))).
Defined.

(** * Further properties of the controllers *)

(** ** Class list algebra *)

Lemma classList_add_iff c c' cl : c' ∈ classList_add c cl <-> c' = c \/ c' ∈ cl.
Proof. unfold classList_add. rewrite elem_of_union, elem_of_singleton. reflexivity. Qed.

Lemma classList_remove_iff c c' cl : c' ∈ classList_remove c cl <-> c' ∈ cl /\ c' <> c.
Proof. unfold classList_remove. rewrite elem_of_difference, elem_of_singleton. reflexivity. Qed.

Lemma classList_add_add c cl : classList_add c (classList_add c cl) = classList_add c cl.
Proof. apply set_eq. intros x. rewrite !classList_add_iff. tauto. Qed.

Lemma classList_remove_remove c cl :
  classList_remove c (classList_remove c cl) = classList_remove c cl.
Proof. apply set_eq. intros x. rewrite !classList_remove_iff. tauto. Qed.

Lemma classList_remove_add c cl :
  classList_remove c (classList_add c cl) = classList_remove c cl.
Proof.
  apply set_eq. intros x. rewrite !classList_remove_iff, classList_add_iff. tauto.
Qed.

Lemma classList_add_remove c cl :
  classList_add c (classList_remove c cl) = classList_add c cl.
Proof.
  apply set_eq. intros x. rewrite !classList_add_iff, classList_remove_iff.
  destruct (decide (x = c)); tauto.
Qed.

Lemma classList_remove_absent c cl : c ∉ cl -> classList_remove c cl = cl.
Proof.
  intros Hc. apply set_eq. intros x. rewrite classList_remove_iff.
  split; [tauto|]. intros Hx. split; [exact Hx|]. intros ->. contradiction.
Qed.

Lemma classList_add_present c cl : c ∈ cl -> classList_add c cl = cl.
Proof.
  intros Hc. apply set_eq. intros x. rewrite classList_add_iff.
  split; [|tauto]. intros [->|Hx]; assumption.
Qed.

(** ** The navbar: idempotence, bursts, missing element *)

Section NavbarMore.

Import Navbar.
Variable cfg : config.

(** X1. [updateNavbar] is idempotent, and it touches nothing but the
    [navbar--scrolled] class: every other class of the navbar, the offset,
    the listener flag and the pending timer are as before. *)
Theorem updateNavbar_idempotent_and_local (p : page) :
  updateNavbar cfg (updateNavbar cfg p) = updateNavbar cfg p
  /\ scrollY (updateNavbar cfg p) = scrollY p
  /\ listening (updateNavbar cfg p) = listening p
  /\ timer (updateNavbar cfg p) = timer p
  /\ (forall cl, navbar p = Some cl ->
        exists cl', navbar (updateNavbar cfg p) = Some cl'
          /\ forall c, c <> "navbar--scrolled" -> (c ∈ cl' <-> c ∈ cl))
  /\ (navbar p = None -> updateNavbar cfg p = p).
Proof.
  unfold updateNavbar. destruct (navbar p) as [cl|] eqn:Hcl.
  - destruct (Qle_bool (scrollY p) (NAVBAR_SCROLL_THRESHOLD cfg)) eqn:Hle;
      unfold set_navbar; cbn [navbar scrollY listening timer]; rewrite Hle;
      cbn [navbar scrollY listening timer].
    + rewrite classList_remove_remove.
      repeat split; try reflexivity; try discriminate.
      intros cl0 [= <-]. eexists. split; [reflexivity|].
      intros c Hc. rewrite classList_remove_iff. tauto.
    + rewrite classList_add_add.
      repeat split; try reflexivity; try discriminate.
      intros cl0 [= <-]. eexists. split; [reflexivity|].
      intros c Hc. rewrite classList_add_iff. tauto.
  - rewrite Hcl. repeat split; try reflexivity. discriminate.
Qed.

Lemma run_app p es1 es2 : run cfg p (es1 ++ es2) = run cfg (run cfg p es1) es2.
Proof. unfold run. apply fold_left_app. Qed.

Lemma run_cons p e es : run cfg p (e :: es) = run cfg (step cfg p e) es.
Proof. reflexivity. Qed.

Lemma scroll_burst p (os : list Q) :
  listening p = true -> os <> [] ->
  navbar (run cfg p (Scroll <$> os)) = navbar p
  /\ listening (run cfg p (Scroll <$> os)) = true
  /\ timer (run cfg p (Scroll <$> os)) = Some 10%Z
  /\ Some (scrollY (run cfg p (Scroll <$> os))) = last os.
Proof.
  revert p. induction os as [|o os IH]; intros p Hl Hne; [congruence|].
  rewrite fmap_cons, run_cons.
  assert (H1 : navbar (step cfg p (Scroll o)) = navbar p
               /\ listening (step cfg p (Scroll o)) = true
               /\ timer (step cfg p (Scroll o)) = Some 10%Z
               /\ scrollY (step cfg p (Scroll o)) = o).
  { cbn [step listening]. rewrite Hl. cbn. auto. }
  destruct H1 as (Hn & Hl1 & Ht & Hy).
  generalize dependent (step cfg p (Scroll o)). intros p1 Hn Hl1 Ht Hy.
  destruct os as [|o' os'].
  - change (run cfg p1 (Scroll <$> [])) with p1. rewrite Hn, Hl1, Ht, Hy. auto.
  - destruct (IH p1 Hl1 ltac:(discriminate)) as (Hn' & Hl' & Ht' & Hy').
    rewrite Hn', Hn, Hl', Ht', Hy'. auto.
Qed.

(** X2. Debounce collapses a burst: while scroll events arrive and no timer
    expires, the navbar classes stay as they were and one timer (10 ms) is
    pending; the next expiry settles the page consistently with the last
    offset of the burst, and a further expiry changes nothing. *)
Theorem debounce_collapses_burst (p : page) (os : list Q) :
  listening p = true -> is_Some (navbar p) -> os <> [] ->
  let during := run cfg p (Scroll <$> os) in
  let after := run cfg p ((Scroll <$> os) ++ [TimerFires]) in
  (navbar during = navbar p /\ timer during = Some 10%Z)
  /\ (settled after /\ consistent cfg after /\ Some (scrollY after) = last os)
  /\ step cfg after TimerFires = after.
Proof.
  intros Hl Hn Hne during after.
  destruct (scroll_burst p os Hl Hne) as (Hnav & Hlis & Htm & Hy). fold during in Hnav, Hlis, Htm, Hy.
  split; [auto|].
  assert (Hafter : after = updateNavbar cfg
            {| scrollY := scrollY during; navbar := navbar during;
               listening := listening during; timer := None |}).
  { unfold after. rewrite run_app. fold during. cbn [run fold_left step]. rewrite Htm. reflexivity. }
  set (d := {| scrollY := scrollY during; navbar := navbar during;
               listening := listening during; timer := None |}) in Hafter.
  destruct (updateNavbar_frame cfg d) as (_ & Ht & Hsy & _).
  assert (Hs : settled after) by (unfold settled; rewrite Hafter, Ht; reflexivity).
  split.
  - split; [exact Hs|]. split.
    + rewrite Hafter. apply updateNavbar_consistent. cbn [navbar d]. rewrite Hnav. exact Hn.
    + rewrite Hafter, Hsy. exact Hy.
  - cbn [step]. rewrite Hs. reflexivity.
Qed.

(** X3. Without a [#navbar] element the controller stays inert: no listener
    is registered, so no event ever sets a timer or creates a navbar. *)
Theorem navbar_missing_is_inert (o : Q) (es : list event) :
  let q := run cfg (handleNavbarScroll cfg (loaded o None)) es in
  navbar q = None /\ listening q = false /\ timer q = None.
Proof.
  cbn [handleNavbarScroll loaded navbar].
  generalize o. induction es as [|e es IH]; intros o'; [cbn; auto|].
  cbn [run fold_left]. destruct e as [o''|]; cbn [step listening timer navbar scrollY].
  - apply IH.
  - apply IH.
Qed.

End NavbarMore.

Lemma debounce_collapses_burst_witness :
  let p := Navbar.handleNavbarScroll CONFIG (Navbar.loaded 0 (Some ∅)) in
  Navbar.step CONFIG
    (Navbar.run CONFIG p ((Navbar.Scroll <$> [100; 200; 40]%Q) ++ [Navbar.TimerFires]))
    Navbar.TimerFires
  = Navbar.run CONFIG p ((Navbar.Scroll <$> [100; 200; 40]%Q) ++ [Navbar.TimerFires]).
Proof.
  intros p.
  apply (proj2 (proj2 (debounce_collapses_burst CONFIG p [100; 200; 40]%Q
                         eq_refl ltac:(eexists; reflexivity) ltac:(discriminate)))).
Defined.

(** ** The mobile menu: inert cases, coherence, round trip *)

Section MobileMenuMore.

Import Menu.

(** X4. When [#navToggle] or [#mobileMenu] is missing, [initMobileMenu]
    registers nothing: no click or key press changes the page. *)
Theorem menu_missing_is_inert (p : page) (es : list event) :
  wired p = false -> toggle p = None \/ menu p = None ->
  run (initMobileMenu p) es = p.
Proof.
  intros Hw Hmiss.
  assert (Hinit : initMobileMenu p = p).
  { unfold initMobileMenu. destruct Hmiss as [H|H]; rewrite H; [reflexivity|].
    destruct (toggle p); reflexivity. }
  rewrite Hinit. induction es as [|e es IH]; [reflexivity|].
  cbn [run fold_left]. unfold step at 2. rewrite Hw. exact IH.
Qed.

Lemma step_shape (q : page) (e : event) :
  active q ->
  step q e = q
  \/ exists q', active q' /\ (step q e = openMenu q' \/ step q e = closeMenu q').
Proof.
  intros Ha. pose proof Ha as (Hw & _). unfold step. rewrite Hw.
  destruct e as [[w inside]|k].
  - unfold document_click, element_listener, toggleMenu. cbn [where_ inside_navbar].
    destruct w.
    + destruct (is_open q).
      * destruct (_ && _); right;
          [exists (closeMenu q) | exists q]; auto using closeMenu_active.
      * destruct (_ && _); right;
          [exists (openMenu q) | exists q]; auto using openMenu_active.
    + destruct (_ && _); right;
        [exists (closeMenu q) | exists q]; auto using closeMenu_active.
    + destruct (_ && _); [right; exists q; auto | left; reflexivity].
  - unfold document_keydown. destruct (_ && _); [right; exists q; auto | left; reflexivity].
Qed.

(** X5. The toggle and the panel never disagree: in every state reached from
    a page with both elements, either no listener has changed anything yet,
    or the menu is open with the open class and ARIA state on both
    elements, or it is closed with both cleared. *)
Theorem menu_marks_coherent (p : page) (es : list event) :
  is_Some (toggle p) -> is_Some (menu p) ->
  let q := run (initMobileMenu p) es in
  q = initMobileMenu p
  \/ (state_of q = Open /\ shows_open q)
  \/ (state_of q = Closed /\ shows_closed q).
Proof.
  intros Ht Hm. destruct (menu_init_active p Ht Hm) as (Ha0 & _).
  cbv zeta. set (p0 := initMobileMenu p) in *. clearbody p0.
  assert (H : forall es q0, active q0 ->
            (q0 = p0 \/ (state_of q0 = Open /\ shows_open q0)
             \/ (state_of q0 = Closed /\ shows_closed q0)) ->
            (run q0 es = p0 \/ (state_of (run q0 es) = Open /\ shows_open (run q0 es))
             \/ (state_of (run q0 es) = Closed /\ shows_closed (run q0 es)))).
  { clear es. induction es as [|e es IH]; intros q0 Haq Hq; [exact Hq|].
    cbn [run fold_left]. apply IH; [apply menu_step_active, Haq|].
    destruct (step_shape q0 e Haq) as [->|(q' & (_ & Ht' & Hm') & [->| ->])].
    - exact Hq.
    - destruct (openMenu_open q' Ht' Hm') as [Ho Hs]. right. left.
      split; [apply state_of_open, Ho | exact Hs].
    - destruct (closeMenu_closed q' Ht' Hm') as [Hc Hs]. right. right.
      split; [apply state_of_closed, Hc | exact Hs]. }
  apply H; [exact Ha0 | left; reflexivity].
Qed.

Lemma close_after_open (q : page) :
  shows_closed q -> closeMenu (openMenu q) = q.
Proof.
  intros (t & m & Ht & Hm & Hct & Hcm & Hat & Ham).
  destruct q as [qt qm qn qw]. cbn [toggle menu] in Ht, Hm. subst qt qm.
  unfold closeMenu, openMenu. cbn [toggle menu navbar wired fmap option_fmap option_map].
  destruct t as [tc ta], m as [mc ma].
  unfold getAttribute in Hat, Ham. cbn [classes attrs] in *.
  unfold setAttribute, el_classList_remove, el_classList_add. cbn [classes attrs].
  rewrite !classList_remove_add, !classList_remove_absent by assumption.
  rewrite !insert_insert_eq, !insert_id by assumption.
  reflexivity.
Qed.

Lemma closeMenu_closed_id (q : page) : shows_closed q -> closeMenu q = q.
Proof.
  intros (t & m & Ht & Hm & Hct & Hcm & Hat & Ham).
  destruct q as [qt qm qn qw]. cbn [toggle menu] in Ht, Hm. subst qt qm.
  unfold closeMenu. cbn [toggle menu navbar wired fmap option_fmap option_map].
  destruct t as [tc ta], m as [mc ma].
  unfold getAttribute in Hat, Ham. cbn [classes attrs] in *.
  unfold setAttribute, el_classList_remove. cbn [classes attrs].
  rewrite !classList_remove_absent by assumption.
  rewrite !insert_id by assumption.
  reflexivity.
Qed.

(** X6. Opening and closing is a round trip: from a page that shows the
    closed state, a toggle activation followed by any way of closing (the
    toggle again, a nav link, Escape, a click outside the navbar) gives back
    exactly the page there was, and a nav-link click on the closed page
    leaves it as it is. *)
Theorem menu_open_close_round_trip (q : page) :
  active q -> navbar q = true -> shows_closed q ->
  let o := step q (toggle_activation true) in
  state_of o = Open
  /\ step o (toggle_activation true) = q
  /\ (forall inside, step o (nav_link_click inside) = q)
  /\ step o cancel_key = q
  /\ step o (outside_click Elsewhere) = q
  /\ (forall inside, step q (nav_link_click inside) = q).
Proof.
  intros Ha Hn Hs o.
  pose proof Ha as (_ & Ht & Hm).
  assert (Hclosed : is_open q = false).
  { destruct Hs as (t & m & _ & Hmq & _ & Hcm & _). unfold is_open. rewrite Hmq.
    apply classList_contains_false, Hcm. }
  assert (Ho : o = openMenu q).
  { unfold o. rewrite step_toggle by exact Ha. unfold toggleMenu. rewrite Hclosed. reflexivity. }
  destruct (openMenu_open q Ht Hm) as [Hopen _].
  assert (Hao : active o) by (rewrite Ho; apply openMenu_active, Ha).
  assert (Hno : navbar o = true) by (rewrite Ho; exact Hn).
  split; [apply state_of_open; rewrite Ho; exact Hopen|].
  rewrite step_toggle, step_cancel_key, step_outside_click by assumption.
  unfold toggleMenu. rewrite Ho, Hopen, (close_after_open q Hs).
  repeat split; try reflexivity.
  - intros inside. rewrite step_nav_link by (apply openMenu_active, Ha).
    apply close_after_open, Hs.
  - intros inside. rewrite step_nav_link by exact Ha. apply closeMenu_closed_id, Hs.
Qed.

(** X7. The click on the toggle also reaches the listener on [document]: if
    the toggle lies outside [#navbar], an activation can close the menu but
    never open it. *)
Theorem toggle_outside_navbar_never_opens (q : page) :
  active q -> navbar q = true ->
  state_of (step q (toggle_activation false)) = Closed.
Proof.
  intros Ha Hn. pose proof Ha as (Hw & Ht & Hm).
  unfold step, toggle_activation. rewrite Hw.
  unfold document_click, element_listener, toggleMenu. cbn [where_ inside_navbar negb].
  destruct (closeMenu_closed q Ht Hm) as [Hc _].
  destruct (openMenu_open q Ht Hm) as [Ho _].
  destruct (is_open q).
  - rewrite Hc, andb_false_r. apply state_of_closed, Hc.
  - rewrite Ho. cbn [navbar openMenu]. rewrite Hn. cbn [andb].
    destruct (closeMenu_closed (openMenu q)) as [Hc' _];
      try (apply openMenu_active, Ha).
    apply state_of_closed, Hc'.
Qed.

(** X8. Events the listeners ignore leave the page untouched: a key other
    than Escape, a click inside the navbar that is neither on the toggle
    nor on a nav link, and, when there is no [#navbar], a click anywhere
    off the toggle and the links, even while the menu is open. *)
Theorem menu_ignored_events (q : page) :
  active q ->
  (forall k, k <> "Escape" -> step q (Keydown k) = q)
  /\ step q (Click {| where_ := Elsewhere; inside_navbar := true |}) = q
  /\ (navbar q = false ->
      forall inside, step q (Click {| where_ := Elsewhere; inside_navbar := inside |}) = q).
Proof.
  intros (Hw & _). unfold step. rewrite Hw.
  unfold document_keydown, document_click, element_listener. cbn [where_ inside_navbar].
  split; [|split].
  - intros k Hk. apply String.eqb_neq in Hk. rewrite Hk. reflexivity.
  - cbn [negb]. rewrite andb_false_r. reflexivity.
  - intros Hn inside. rewrite Hn. reflexivity.
Qed.

End MobileMenuMore.

(** ** The count-up animation: bounds, termination, the zero timestamp *)

Section CounterMore.

Import Counter.
Local Open Scope Q_scope.

Variable cfg : config.
Variable T : Z.
Hypothesis D_pos : 0 < COUNTER_DURATION_MS cfg.


Lemma progress_start_lt_1 (e : Q) :
  e == 0 -> progress_of (COUNTER_DURATION_MS cfg) e < 1.
Proof.
  intros He. rewrite progress_before by (exact D_pos || lra).
  rewrite He. unfold Qdiv. rewrite Qmult_0_l. reflexivity.
Qed.



Lemma step_stopped (a : anim) (t : Q) : requested a = false -> step cfg T a t = a.
Proof. intros H. unfold step. rewrite H. reflexivity. Qed.

Lemma step_stops_with_target (a : anim) (t : Q) :
  requested a = true -> requested (step cfg T a t) = false ->
  textContent (step cfg T a t) = Some T.
Proof.
  intros Hr. unfold step, shown. rewrite Hr. cbn [requested textContent].
  destruct (Qlt_le_dec _ 1); [discriminate | reflexivity].
Qed.

Lemma run_stopped (ts : list Q) (a : anim) :
  requested a = false -> fold_left (step cfg T) ts a = a.
Proof.
  intros H. induction ts as [|t ts IH]; [reflexivity|].
  cbn [fold_left]. rewrite step_stopped by exact H. exact IH.
Qed.

Lemma run_after_start (ts : list Q) : forall a s,
  requested a = true -> startTime a = Some s -> falsy (Some s) = false ->
  (exists t, t ∈ ts /\ s + COUNTER_DURATION_MS cfg <= t) ->
  requested (fold_left (step cfg T) ts a) = false
  /\ textContent (fold_left (step cfg T) ts a) = Some T.
Proof.
  induction ts as [|t ts IH]; intros a s Hr Hs Hf (u & Hu & Hle);
    [apply elem_of_nil in Hu; contradiction|].
  cbn [fold_left].
  assert (Hstart : startTime (step cfg T a t) = Some s).
  { unfold step. rewrite Hr, Hs, Hf. reflexivity. }
  destruct (requested (step cfg T a t)) eqn:Hr'.
  - apply (IH _ s Hr' Hstart Hf).
    apply elem_of_cons in Hu as [->|Hu]; [|eauto].
    exfalso. revert Hr'. unfold step. rewrite Hr, Hs, Hf. cbn [requested default from_option id].
    destruct (Qlt_le_dec _ 1) as [Hlt|]; [|discriminate]. intros _.
    rewrite progress_after in Hlt by (exact D_pos || lra). revert Hlt. apply Qlt_irrefl.
  - pose proof (step_stops_with_target a t Hr Hr') as Htx.
    rewrite run_stopped by exact Hr'. auto.
Qed.

(** X10. The animation ends: started at a first frame with a timestamp other
    than 0, once a frame comes at least the duration later no further frame
    is requested, the element shows exactly the target, and any later
    callback would leave the animation as it is. *)
Theorem countUp_terminates (t0 : Q) (ts : list Q) :
  ~ t0 == 0 ->
  (exists t, t ∈ ts /\ t0 + COUNTER_DURATION_MS cfg <= t) ->
  let a := fold_left (step cfg T) (t0 :: ts) countUp in
  requested a = false /\ textContent a = Some T /\ forall t, step cfg T a t = a.
Proof.
  intros Hnz Hex a.
  assert (Hf : falsy (Some t0) = false).
  { cbn [falsy]. destruct (Qeq_bool t0 0) eqn:E; [|reflexivity].
    apply Qeq_bool_iff in E. contradiction. }
  assert (H0 : requested (step cfg T countUp t0) = true
               /\ startTime (step cfg T countUp t0) = Some t0).
  { unfold step, countUp. cbn [requested startTime falsy]. split; [|reflexivity].
    destruct (Qlt_le_dec _ 1) as [|Hge]; [reflexivity|]. exfalso.
    apply (Qlt_not_le _ _ (progress_start_lt_1 (t0 - t0) ltac:(ring))), Hge. }
  destruct H0 as [Hr Hs].
  destruct (run_after_start ts _ t0 Hr Hs Hf Hex) as [Hstop Htx].
  unfold a. cbn [fold_left]. split; [exact Hstop|]. split; [exact Htx|].
  intros t. apply step_stopped, Hstop.
Qed.

(** X11. A start time of 0 counts as not set: when the first frame has
    timestamp 0 it shows 0 and the clock starts again at the next frame, so
    the frames after it show what they would show without it. *)
Theorem zero_timestamp_does_not_start_clock (t : Q) (ts : list Q) :
  frames cfg T countUp (0 :: t :: ts) = Some 0%Z :: frames cfg T countUp (t :: ts).
Proof.
  assert (H0 : step cfg T countUp 0
               = {| startTime := Some 0; textContent := Some 0%Z; requested := true |}).
  { unfold step, countUp. cbn [requested startTime falsy].
    rewrite shown_start by (exact D_pos || reflexivity).
    destruct (Qlt_le_dec _ 1) as [|Hge]; [reflexivity|]. exfalso.
    apply (Qlt_not_le _ _ (progress_start_lt_1 (0 - 0) ltac:(reflexivity))), Hge. }
  cbn [frames]. rewrite H0. reflexivity.
Qed.

End CounterMore.

(** ** The reveal-once observers: when the effect does fire *)

Section RevealExactly.

Import Reveal.

Variable o : observer.
Hypothesis effect_target : forall el, action_target (effect o el) = el.

Lemma fired_pos (el : node) (acts : list action) :
  0 < fired el acts <-> exists a, a ∈ acts /\ action_target a = el.
Proof.
  unfold fired. split.
  - destruct (filter (fun a => action_target a = el) acts) as [|a l] eqn:E;
      [simpl; lia|]. intros _.
    assert (Ha : a ∈ filter (fun a => action_target a = el) acts) by (rewrite E; left).
    apply list_elem_of_filter in Ha as [Ht Ha]. eauto.
  - intros (a & Ha & Ht).
    assert (Hin : a ∈ filter (fun a => action_target a = el) acts)
      by (apply list_elem_of_filter; auto).
    destruct (filter _ acts); [apply elem_of_nil in Hin; contradiction | simpl; lia].
Qed.

Lemma on_entry_targets (st : state) (e : entry) (r : registration) :
  r ∈ targets (on_entry o st e) <->
  r ∈ targets st /\ ~ (entry_isIntersecting e = true /\ reg_target r = entry_target e).
Proof.
  unfold on_entry. destruct (entry_isIntersecting e).
  - unfold unobserve. cbn [targets]. rewrite list_elem_of_filter. tauto.
  - split; [intros H; split; [exact H | intros [? _]; discriminate] | tauto].
Qed.

Lemma on_entry_effects (st : state) (e : entry) (a : action) :
  a ∈ effects (on_entry o st e) <->
  a ∈ effects st \/ (entry_isIntersecting e = true /\ a = effect o (entry_target e)).
Proof.
  unfold on_entry. destruct (entry_isIntersecting e).
  - unfold unobserve. cbn [effects]. rewrite elem_of_app, list_elem_of_singleton. tauto.
  - split; [tauto | intros [H|[? _]]; [exact H | discriminate]].
Qed.

Lemma callback_targets (es : list entry) : forall (st : state) (r : registration),
  r ∈ targets (callback o es st) <->
  r ∈ targets st
  /\ ~ exists e, e ∈ es /\ entry_isIntersecting e = true /\ reg_target r = entry_target e.
Proof.
  induction es as [|e es IH]; intros st r.
  - cbn. split; [intros H; split; [exact H|] | tauto].
    intros (e & He & _). apply elem_of_nil in He. contradiction.
  - unfold callback. cbn [fold_left]. fold (callback o es (on_entry o st e)).
    rewrite IH, on_entry_targets. split.
    + intros [[Hr Hne] Hn]. split; [exact Hr|]. intros (e' & He' & Hf & Ht).
      apply elem_of_cons in He' as [->|He']; [tauto | apply Hn; eauto].
    + intros [Hr Hn]. split; [split; [exact Hr|]|].
      * intros [Hf Ht]. apply Hn. exists e. split; [left | auto].
      * intros (e' & He' & Hf & Ht). apply Hn. exists e'. split; [right; exact He' | auto].
Qed.

Lemma callback_effects (es : list entry) : forall (st : state) (a : action),
  a ∈ effects (callback o es st) <->
  a ∈ effects st
  \/ exists e, e ∈ es /\ entry_isIntersecting e = true /\ a = effect o (entry_target e).
Proof.
  induction es as [|e es IH]; intros st a.
  - cbn. split; [tauto|]. intros [H|(e & He & _)]; [exact H|].
    apply elem_of_nil in He. contradiction.
  - unfold callback. cbn [fold_left]. fold (callback o es (on_entry o st e)).
    rewrite IH, on_entry_effects. split.
    + intros [[H|[Hf Ha]]|(e' & He' & Hf & Ha)]; [tauto | |].
      * right. exists e. split; [left | auto].
      * right. exists e'. split; [right; exact He' | auto].
    + intros [H|(e' & He' & Hf & Ha)]; [tauto|].
      apply elem_of_cons in He' as [->|He']; [tauto | right; eauto].
Qed.

Lemma queued_elem (f : frame) (regs : list registration) (e : entry) :
  e ∈ queued o f regs <->
  exists r, r ∈ regs /\ changed o f r = true
            /\ e = {| entry_target := reg_target r;
                      entry_isIntersecting := isIntersecting (f (reg_target r)) |}.
Proof.
  unfold queued. rewrite list_elem_of_fmap. split.
  - intros (r & -> & Hr). apply list_elem_of_filter in Hr as [Hc Hr]. eauto.
  - intros (r & Hr & Hc & ->). exists r. split; [reflexivity|].
    apply list_elem_of_filter. auto.
Qed.

Lemma changed_when_first_intersecting (f : frame) (r : registration) :
  previousIsIntersecting r = false -> isIntersecting (f (reg_target r)) = true ->
  changed o f r = true.
Proof.
  intros Hp Hi. unfold changed. rewrite Hp, Hi. apply orb_true_r.
Qed.

Lemma render_targets (st : state) (f : frame) (r' : registration) :
  (forall r, r ∈ targets st -> previousIsIntersecting r = false) ->
  r' ∈ targets (render o st f) <->
  exists r, r ∈ targets st /\ r' = refresh o f r
            /\ isIntersecting (f (reg_target r)) = false.
Proof.
  intros Hprev. unfold render. rewrite callback_targets. cbn [targets].
  rewrite list_elem_of_fmap. split.
  - intros [(r & -> & Hr) Hn]. exists r. split; [exact Hr|]. split; [reflexivity|].
    destruct (isIntersecting (f (reg_target r))) eqn:Hi; [|reflexivity].
    exfalso. apply Hn. eexists. split.
    + apply queued_elem. exists r. split; [exact Hr|]. split; [|reflexivity].
      apply changed_when_first_intersecting; auto.
    + cbn. auto.
  - intros (r & Hr & -> & Hi). split; [eauto|].
    intros (e & He & Hf & Ht). apply queued_elem in He as (r0 & _ & _ & ->).
    cbn in Hf, Ht. rewrite <- Ht in Hf. congruence.
Qed.

Lemma render_effects (st : state) (f : frame) (a : action) :
  (forall r, r ∈ targets st -> previousIsIntersecting r = false) ->
  a ∈ effects (render o st f) <->
  a ∈ effects st
  \/ exists r, r ∈ targets st /\ isIntersecting (f (reg_target r)) = true
               /\ a = effect o (reg_target r).
Proof.
  intros Hprev. unfold render. rewrite callback_effects. cbn [effects]. split.
  - intros [H|(e & He & Hf & Ha)]; [tauto|].
    apply queued_elem in He as (r & Hr & _ & ->). cbn in Hf, Ha. right. eauto.
  - intros [H|(r & Hr & Hi & Ha)]; [tauto|]. right. eexists. split.
    + apply queued_elem. exists r. split; [exact Hr|]. split; [|reflexivity].
      apply changed_when_first_intersecting; auto.
    + cbn. auto.
Qed.

Lemma init_history (els : list node) :
  (forall r, r ∈ targets (init els) -> previousIsIntersecting r = false)
  /\ (forall el, observed el (init els) <-> el ∈ els)
  /\ effects (init els) = [].
Proof.
  unfold init.
  assert (H : forall st,
            (forall r, r ∈ targets st -> previousIsIntersecting r = false) ->
            let st' := fold_left (fun st el => observe el st) els st in
            (forall r, r ∈ targets st' -> previousIsIntersecting r = false)
            /\ (forall el, observed el st' <-> observed el st \/ el ∈ els)
            /\ effects st' = effects st).
  { induction els as [|x els IH]; intros st Hp; cbn [fold_left].
    - split; [exact Hp|]. split; [|reflexivity]. intros el. rewrite elem_of_nil. tauto.
    - assert (Hobs : (forall r, r ∈ targets (observe x st) -> previousIsIntersecting r = false)
                     /\ (forall el, observed el (observe x st) <-> observed el st \/ el = x)
                     /\ effects (observe x st) = effects st).
      { unfold observe, observed. destruct (is_observed x (targets st)) eqn:Hx.
        - split; [exact Hp|]. split; [|reflexivity]. intros el. split; [tauto|].
          intros [H| ->]; [exact H|].
          unfold is_observed in Hx. apply existsb_exists in Hx as (r & Hr & Heq).
          apply Nat.eqb_eq in Heq. subst x.
          apply list_elem_of_fmap_2, list_elem_of_In, Hr.
        - cbn [targets effects]. split; [|split; [|reflexivity]].
          + intros r Hr. apply elem_of_app in Hr as [Hr|Hr]; [apply Hp, Hr|].
            apply list_elem_of_singleton in Hr. subst r. reflexivity.
          + intros el. rewrite fmap_app, elem_of_app. cbn.
            rewrite list_elem_of_singleton. reflexivity. }
      destruct Hobs as (Hp1 & Ho1 & He1).
      destruct (IH (observe x st) Hp1) as (Hp2 & Ho2 & He2).
      split; [exact Hp2|]. split; [|congruence].
      intros el. rewrite Ho2, Ho1, elem_of_cons. tauto. }
  destruct (H {| targets := []; effects := [] |}) as (Hp & Ho & He).
  { intros r Hr. apply elem_of_nil in Hr. contradiction. }
  split; [exact Hp|]. split; [|exact He].
  intros el. rewrite Ho. unfold observed. cbn. rewrite elem_of_nil. tauto.
Qed.

Lemma run_history (els : list node) (fs : list frame) :
  let st := run o els fs in
  (forall r, r ∈ targets st -> previousIsIntersecting r = false)
  /\ (forall el, observed el st ->
        el ∈ els /\ forall f, f ∈ fs -> isIntersecting (f el) = false)
  /\ (forall a, a ∈ effects st ->
        action_target a ∈ els
        /\ exists f, f ∈ fs /\ isIntersecting (f (action_target a)) = true)
  /\ (forall el, el ∈ els ->
        observed el st \/ exists a, a ∈ effects st /\ action_target a = el).
Proof.
  induction fs as [|f fs IH] using rev_ind.
  - destruct (init_history els) as (Hp & Ho & He). cbn. unfold run. cbn [fold_left].
    split; [exact Hp|]. split; [|split].
    + intros el Hel. split; [apply Ho, Hel|]. intros f Hf.
      apply elem_of_nil in Hf. contradiction.
    + rewrite He. intros a Ha. apply elem_of_nil in Ha. contradiction.
    + intros el Hel. left. apply Ho, Hel.
  - cbv zeta in *. unfold run in *. rewrite fold_left_app. cbn [fold_left].
    set (st := fold_left (render o) fs (init els)) in *.
    destruct IH as (Hp & Hobs & Heff & Hall).
    assert (Hobs' : forall el, observed el (render o st f) <->
                               observed el st /\ isIntersecting (f el) = false).
    { intros el. unfold observed. rewrite !list_elem_of_fmap. split.
      - intros (r' & -> & Hr'). apply (render_targets st f r' Hp) in Hr' as (r & Hr & -> & Hi).
        cbn. split; [eauto | exact Hi].
      - intros [(r & -> & Hr) Hi]. exists (refresh o f r). split; [reflexivity|].
        apply (render_targets st f _ Hp). eauto. }
    split; [|split; [|split]].
    + intros r' Hr'. apply (render_targets st f r' Hp) in Hr' as (r & Hr & -> & Hi).
      cbn. exact Hi.
    + intros el Hel. apply Hobs' in Hel as [Hel Hi].
      destruct (Hobs el Hel) as [Hin Hfs]. split; [exact Hin|].
      intros g Hg. apply elem_of_app in Hg as [Hg|Hg]; [apply Hfs, Hg|].
      apply list_elem_of_singleton in Hg. subst g. exact Hi.
    + intros a Ha. apply (render_effects st f a Hp) in Ha as [Ha|(r & Hr & Hi & ->)].
      * destruct (Heff a Ha) as [Hin (g & Hg & Hgi)]. split; [exact Hin|].
        exists g. split; [apply elem_of_app; left; exact Hg | exact Hgi].
      * rewrite effect_target.
        assert (Ho : observed (reg_target r) st) by (apply list_elem_of_fmap_2, Hr).
        split; [apply (Hobs _ Ho)|].
        exists f. split; [apply elem_of_app; right; apply list_elem_of_singleton; reflexivity
                         | exact Hi].
    + intros el Hel. destruct (Hall el Hel) as [Ho|(a & Ha & Ht)].
      * destruct (isIntersecting (f el)) eqn:Hi.
        -- right. unfold observed in Ho. apply list_elem_of_fmap in Ho as (r & -> & Hr).
           exists (effect o (reg_target r)). split; [|apply effect_target].
           apply (render_effects st f _ Hp). right. eauto.
        -- left. apply Hobs'. auto.
      * right. exists a. split; [|exact Ht]. apply (render_effects st f a Hp). left. exact Ha.
Qed.

Lemma fires_iff_seen_intersecting (els : list node) (fs : list frame) (el : node) :
  fired el (effects (run o els fs)) = 1 <->
  el ∈ els /\ exists f, f ∈ fs /\ isIntersecting (f el) = true.
Proof.
  destruct (run_history els fs) as (_ & Hobs & Heff & Hall).
  destruct (effect_at_most_once o effect_target els fs el) as [Hle _].
  split.
  - intros H1. assert (Hpos : 0 < fired el (effects (run o els fs))) by lia.
    apply fired_pos in Hpos as (a & Ha & <-). apply Heff, Ha.
  - intros [Hin (f & Hf & Hi)].
    destruct (Hall el Hin) as [Ho|Hex].
    + destruct (Hobs el Ho) as [_ Hnever]. rewrite (Hnever f Hf) in Hi. discriminate.
    + apply fired_pos in Hex. lia.
Qed.

End RevealExactly.

(** X12. The effect fires exactly for the observed nodes that are ever
    reported intersecting: for the counter observer and for the fade
    observer, after any frames, a node has had its one-time effect (once) if
    and only if it is one of the nodes handed to the observer and some frame
    reported it as intersecting.  The callback reads only [isIntersecting],
    never the ratio. *)
Theorem reveal_fires_iff_seen_intersecting (els : list Reveal.node)
    (fs : list Reveal.frame) (el : Reveal.node) :
  (Reveal.fired el (Reveal.effects (Reveal.run Reveal.counter_observer els fs)) = 1 <->
   el ∈ els /\ exists f, f ∈ fs /\ Reveal.isIntersecting (f el) = true)
  /\ (Reveal.fired el (Reveal.effects (Reveal.run Reveal.fade_observer els fs)) = 1 <->
      el ∈ els /\ exists f, f ∈ fs /\ Reveal.isIntersecting (f el) = true).
Proof.
  split.
  - apply (fires_iff_seen_intersecting Reveal.counter_observer (fun _ => eq_refl)).
  - apply (fires_iff_seen_intersecting Reveal.fade_observer (fun _ => eq_refl)).
Qed.

(** ** The portfolio filter: no memory, nothing else touched *)

Section PortfolioMore.

Import Portfolio.

Lemma deactivate_absorbs (t : element) :
  deactivate (activate (deactivate t)) = deactivate t
  /\ deactivate (deactivate t) = deactivate t.
Proof.
  destruct t as [c a]. unfold deactivate, activate, setAttribute,
    el_classList_remove, el_classList_add. cbn [classes attrs].
  rewrite classList_remove_add, !classList_remove_remove, !insert_insert_eq.
  split; reflexivity.
Qed.

Lemma show_or_hide_absorbs (f g : option string) (item : element) :
  show_or_hide f (show_or_hide g item) = show_or_hide f item.
Proof.
  assert (Hm : matches f (show_or_hide g item) = matches f item).
  { unfold matches. rewrite show_or_hide_category. reflexivity. }
  unfold show_or_hide at 1. rewrite Hm. unfold show_or_hide.
  destruct item as [c a]. unfold el_classList_remove, el_classList_add.
  destruct (matches f _), (matches g _); cbn [classes attrs];
    rewrite ?classList_remove_remove, ?classList_remove_add,
      ?classList_add_remove, ?classList_add_add; reflexivity.
Qed.

Lemma data_filter_kept (t : element) :
  getAttribute "data-filter" (activate t) = getAttribute "data-filter" t
  /\ getAttribute "data-filter" (deactivate t) = getAttribute "data-filter" t.
Proof.
  unfold getAttribute, activate, deactivate, setAttribute. cbn [attrs el_classList_add
    el_classList_remove]. rewrite !lookup_insert_ne by discriminate. split; reflexivity.
Qed.

Lemma deactivate_alter (j : nat) (ts : list element) :
  deactivate <$> alter activate j (deactivate <$> ts) = deactivate <$> ts.
Proof.
  apply list_eq. intros k. rewrite !list_lookup_fmap.
  destruct (decide (j = k)) as [->|Hne].
  - rewrite list_lookup_alter_eq, list_lookup_fmap.
    destruct (ts !! k) as [t|]; [|reflexivity]. cbn.
    f_equal. apply deactivate_absorbs.
  - rewrite list_lookup_alter_ne, list_lookup_fmap by exact Hne.
    destruct (ts !! k) as [t|]; [|reflexivity]. cbn.
    f_equal. apply deactivate_absorbs.
Qed.

(** X13. The filter keeps no memory of earlier selections: a click on tab
    [i] after a click on tab [j] leaves exactly the page a click on [i]
    alone would leave; in particular clicking the same tab twice is the same
    as clicking it once. *)
Theorem portfolio_last_click_wins (p : page) (i j : nat) :
  i < length (tabs p) -> j < length (tabs p) ->
  click i (click j p) = click i p.
Proof.
  intros Hi Hj. destruct (wired p) eqn:Hw.
  2:{ unfold click. rewrite Hw, Hw. reflexivity. }
  apply lookup_lt_is_Some in Hi as [ti Hti]. apply lookup_lt_is_Some in Hj as [tj Htj].
  assert (Hq : click j p =
               {| tabs := alter activate j (deactivate <$> tabs p);
                  items := show_or_hide (getAttribute "data-filter" tj) <$> items p;
                  wired := true |}).
  { unfold click. rewrite Hw. unfold on_click. rewrite Htj, Hw. reflexivity. }
  rewrite Hq. unfold click. cbn [wired]. rewrite Hw.
  unfold on_click. cbn [tabs items wired]. rewrite Hti, Hw.
  assert (Hlook : exists ti', alter activate j (deactivate <$> tabs p) !! i = Some ti'
                    /\ getAttribute "data-filter" ti' = getAttribute "data-filter" ti).
  { destruct (decide (j = i)) as [->|Hne].
    - rewrite list_lookup_alter_eq, list_lookup_fmap, Hti. cbn. eexists. split; [reflexivity|].
      rewrite (proj1 (data_filter_kept _)), (proj2 (data_filter_kept _)). reflexivity.
    - rewrite list_lookup_alter_ne, list_lookup_fmap, Hti by exact Hne. cbn.
      eexists. split; [reflexivity|]. apply data_filter_kept. }
  destruct Hlook as (ti' & -> & Hf). rewrite Hf, deactivate_alter.
  f_equal. rewrite <- list_fmap_compose. apply list_fmap_ext.
  intros k item _. apply show_or_hide_absorbs.
Qed.


End PortfolioMore.

(** ** The string primitives: trim and encodeURIComponent *)

Section StripFacts.

Import JsString JsStringAux.
Local Open Scope list_scope.

Variable w2 : ascii -> ascii -> bool.
Variable w3 : ascii -> ascii -> ascii -> bool.

Lemma strip_fixed (l : list ascii) : starts_ws w2 w3 l = false -> strip w2 w3 l = l.
Proof.
  destruct l as [|a [|b [|c l]]]; cbn [starts_ws strip]; intros H;
    repeat (apply orb_false_iff in H as [? H]);
    repeat match goal with Hx : _ = false |- _ => rewrite Hx; clear Hx end;
    try rewrite H; reflexivity.
Qed.

Lemma strip_spec (n : nat) : forall l : list ascii,
  length l <= n ->
  starts_ws w2 w3 (strip w2 w3 l) = false /\ exists pre, l = pre ++ strip w2 w3 l.
Proof.
  induction n as [|n IH]; intros l Hn.
  - destruct l; [|simpl in Hn; lia]. split; [reflexivity | exists []; reflexivity].
  - destruct l as [|a l1]; [split; [reflexivity | exists []; reflexivity]|].
    cbn [length] in Hn. cbn [strip].
    destruct (ws1 a) eqn:H1.
    { destruct (IH l1 ltac:(lia)) as [Hs (pre & Hp)]. split; [exact Hs|].
      exists (a :: pre). cbn. f_equal. exact Hp. }
    destruct l1 as [|b l2].
    { split; [cbn [starts_ws]; rewrite H1; reflexivity | exists []; reflexivity]. }
    cbn [length] in Hn. destruct (w2 a b) eqn:H2.
    { destruct (IH l2 ltac:(lia)) as [Hs (pre & Hp)]. split; [exact Hs|].
      exists (a :: b :: pre). cbn. do 2 f_equal. exact Hp. }
    destruct l2 as [|c l3].
    { split; [cbn [starts_ws]; rewrite H1, H2; reflexivity | exists []; reflexivity]. }
    cbn [length] in Hn. destruct (w3 a b c) eqn:H3.
    { destruct (IH l3 ltac:(lia)) as [Hs (pre & Hp)]. split; [exact Hs|].
      exists (a :: b :: c :: pre). cbn. do 3 f_equal. exact Hp. }
    split; [cbn [starts_ws]; rewrite H1, H2, H3; reflexivity | exists []; reflexivity].
Qed.

Lemma starts_ws_prefix (pre suf : list ascii) :
  starts_ws w2 w3 (pre ++ suf) = false -> starts_ws w2 w3 pre = false.
Proof.
  destruct pre as [|a [|b [|c pre]]]; cbn [app starts_ws]; intros H; [reflexivity | | | exact H].
  - apply orb_false_iff in H as [-> _]. reflexivity.
  - apply orb_false_iff in H as [-> H]. destruct suf; cbn in H |- *.
    + exact H.
    + apply orb_false_iff in H as [-> _]. reflexivity.
Qed.

End StripFacts.

Section TrimFacts.

Import JsString JsStringAux.
Local Open Scope list_scope.

Lemma trimEnd_prefix (l : list ascii) : exists post, l = trimEnd l ++ post.
Proof.
  unfold trimEnd.
  destruct (strip_spec (fun a b => ws2 b a) (fun a b c => ws3 c b a)
              (length (rev l)) (rev l) (le_n _)) as [_ (pre & Hp)].
  exists (rev pre). rewrite <- rev_app_distr, <- Hp, rev_involutive. reflexivity.
Qed.

Lemma trim_list_idempotent (l : list ascii) :
  trimEnd (trimStart (trimEnd (trimStart l))) = trimEnd (trimStart l).
Proof.
  set (m := trimStart l).
  assert (Hm : starts_ws ws2 ws3 m = false)
    by (apply (strip_spec ws2 ws3 (length l) l (le_n _))).
  destruct (trimEnd_prefix m) as (post & Hpost).
  assert (Hn : starts_ws ws2 ws3 (trimEnd m) = false).
  { apply (starts_ws_prefix ws2 ws3 _ post). rewrite <- Hpost. exact Hm. }
  unfold trimStart at 1. rewrite (strip_fixed ws2 ws3 _ Hn).
  unfold trimEnd at 1 2. rewrite rev_involutive.
  rewrite strip_fixed; [reflexivity|].
  apply (strip_spec _ _ (length (rev m)) (rev m) (le_n _)).
Qed.

Lemma string_of_list_ascii_app (l1 l2 : list ascii) :
  string_of_list_ascii (l1 ++ l2)
  = (string_of_list_ascii l1 ++ string_of_list_ascii l2)%string.
Proof.
  induction l1 as [|a l1 IH]; [reflexivity|].
  cbn [app string_of_list_ascii].
  change (String a (string_of_list_ascii (l1 ++ l2))
          = String a (string_of_list_ascii l1 ++ string_of_list_ascii l2)%string).
  f_equal. exact IH.
Qed.

(** X15. [trim] is idempotent and only removes from the two ends: the
    trimmed string sits inside the original between a removed prefix and a
    removed suffix. *)
Theorem trim_idempotent_and_inner (s : string) :
  trim (trim s) = trim s
  /\ exists before after, s = (before ++ trim s ++ after)%string.
Proof.
  split.
  - unfold trim. rewrite list_ascii_of_string_of_list_ascii, trim_list_idempotent.
    reflexivity.
  - unfold trim.
    destruct (strip_spec ws2 ws3 (length (list_ascii_of_string s))
                (list_ascii_of_string s) (le_n _)) as [_ (pre & Hpre)].
    destruct (trimEnd_prefix (trimStart (list_ascii_of_string s))) as (post & Hpost).
    exists (string_of_list_ascii pre), (string_of_list_ascii post).
    rewrite <- !string_of_list_ascii_app.
    unfold trimStart in *. rewrite <- Hpost, <- Hpre.
    symmetry. apply string_of_list_ascii_of_string.
Qed.

End TrimFacts.

Section EncodeFacts.

Import JsString JsStringAux.

Lemma unescape_percent (h1 h2 : ascii) (rest : string) :
  unescape (String "%" (String h1 (String h2 rest)))
  = String (ascii_of_nat (16 * hex_value h1 + hex_value h2)) (unescape rest).
Proof. reflexivity. Qed.

Lemma unescape_plain (a : ascii) (rest : string) :
  Ascii.eqb a "%" = false -> unescape (String a rest) = String a (unescape rest).
Proof. intros H. cbn [unescape]. rewrite H. reflexivity. Qed.

Lemma unreserved_not_percent (a : ascii) : unreserved a = true -> Ascii.eqb a "%" = false.
Proof.
  destruct a as [[] [] [] [] [] [] [] []]; intros H; try reflexivity; discriminate H.
Qed.

Lemma percent_round_trip (a : ascii) :
  ascii_of_nat (16 * hex_value (hex_digit (code a / 16))
                + hex_value (hex_digit (code a mod 16))) = a.
Proof. destruct a as [[] [] [] [] [] [] [] []]; reflexivity. Qed.

Lemma percent_safe (a : ascii) :
  forallb url_safe (list_ascii_of_string (percent a)) = true.
Proof. destruct a as [[] [] [] [] [] [] [] []]; reflexivity. Qed.

Lemma encode_cons (a : ascii) (s : string) :
  encodeURIComponent (String a s)
  = if unreserved a then String a (encodeURIComponent s)
    else String "%" (String (hex_digit (code a / 16))
                       (String (hex_digit (code a mod 16)) (encodeURIComponent s))).
Proof. cbn [encodeURIComponent]. destruct (unreserved a); reflexivity. Qed.

Lemma unescape_encode (s : string) : unescape (encodeURIComponent s) = s.
Proof.
  induction s as [|a s IH]; [reflexivity|].
  rewrite encode_cons. destruct (unreserved a) eqn:Hu.
  - rewrite unescape_plain by (apply unreserved_not_percent, Hu). rewrite IH. reflexivity.
  - rewrite unescape_percent, percent_round_trip, IH. reflexivity.
Qed.

Lemma encode_app (s1 s2 : string) :
  encodeURIComponent (s1 ++ s2) = encodeURIComponent s1 ++ encodeURIComponent s2.
Proof.
  induction s1 as [|a s1 IH]; [reflexivity|].
  change (String a s1 ++ s2) with (String a (s1 ++ s2)).
  rewrite !encode_cons, IH. destruct (unreserved a); reflexivity.
Qed.

(** X16. [encodeURIComponent] loses nothing: reading the percent escapes back
    gives the original bytes, so different texts give different encodings;
    and it encodes piece by piece. *)
Theorem encodeURIComponent_lossless (s1 s2 : string) :
  unescape (encodeURIComponent s1) = s1
  /\ (encodeURIComponent s1 = encodeURIComponent s2 -> s1 = s2)
  /\ encodeURIComponent (s1 ++ s2) = encodeURIComponent s1 ++ encodeURIComponent s2.
Proof.
  split; [apply unescape_encode|]. split; [|apply encode_app].
  intros H. rewrite <- (unescape_encode s1), <- (unescape_encode s2), H. reflexivity.
Qed.

Lemma encode_safe (s : string) :
  forallb url_safe (list_ascii_of_string (encodeURIComponent s)) = true.
Proof.
  induction s as [|a s IH]; [reflexivity|].
  rewrite encode_cons. destruct (unreserved a) eqn:Hu.
  - cbn [list_ascii_of_string forallb]. rewrite IH. unfold url_safe. rewrite Hu. reflexivity.
  - pose proof (percent_safe a) as Hp. unfold percent in Hp.
    cbn [list_ascii_of_string forallb] in Hp |- *.
    rewrite IH. rewrite !andb_true_r in Hp |- *. exact Hp.
Qed.

(** X17. The deep link is the fixed address followed by one query parameter:
    [https://wa.me/<number>?text=<q>], where every character of [q] is an
    unreserved URI character or part of a percent escape.  Whatever the
    user typed, [q] holds no ampersand, number sign, question mark, equals
    sign, slash, space or line break. *)
Theorem deep_link_is_url_safe (cfg : config) (p : Contact.page) :
  exists q,
    Contact.waUrl cfg p = "https://wa.me/" ++ WHATSAPP_NUMBER cfg ++ "?text=" ++ q
    /\ q = encodeURIComponent (Contact.waText p)
    /\ forall c, c ∈ list_ascii_of_string q ->
         url_safe c = true
         /\ c ∉ ["&"; "#"; "?"; "="; "/"; " "; ascii_of_nat 10; ascii_of_nat 13]%char.
Proof.
  exists (encodeURIComponent (Contact.waText p)).
  split; [reflexivity|]. split; [reflexivity|].
  intros c Hc.
  assert (Hs : url_safe c = true).
  { pose proof (encode_safe (Contact.waText p)) as H.
    rewrite forallb_forall in H. apply H, list_elem_of_In, Hc. }
  split; [exact Hs|]. intros Hin.
  repeat (apply elem_of_cons in Hin as [->|Hin]; [discriminate Hs|]).
  apply elem_of_nil in Hin. exact Hin.
Qed.

End EncodeFacts.

Lemma encodeURIComponent_lossless_witness :
  "Area: Harare" = JsStringAux.unescape "Area%3A%20Harare".
Proof.
  apply (proj1 (proj2 (encodeURIComponent_lossless "Area: Harare"
                         (JsStringAux.unescape "Area%3A%20Harare")))).
  reflexivity.
Defined.

(** ** The submission flow: success, requests, what is kept *)

Section ContactFlowMore.

Import JsString JsStringAux Contact ContactInput.

Lemma alter_kept (g : felement -> felement) k (d : gmap string felement) id :
  (forall x, kept (g x) = kept x) ->
  kept <$> alter g k d !! id = kept <$> d !! id.
Proof.
  intros Hg. destruct (decide (k = id)) as [->|Hne].
  - rewrite lookup_alter_eq. destruct (d !! id); simpl; [rewrite Hg|]; reflexivity.
  - rewrite lookup_alter_ne by exact Hne. reflexivity.
Qed.

Lemma validateField_kept f e m p id :
  kept <$> doc (snd (validateField f e m p)) !! id = kept <$> doc p !! id.
Proof.
  unfold validateField.
  destruct (doc p !! f); [destruct (doc p !! e)|]; try reflexivity.
  cbn [snd with_doc doc]. rewrite !alter_kept by reflexivity. reflexivity.
Qed.

Lemma validateForm_kept p id :
  kept <$> doc (snd (validateForm p)) !! id = kept <$> doc p !! id.
Proof. rewrite validateForm_snd, !validateField_kept. reflexivity. Qed.

(** X18. With an endpoint configured, a valid form and an ok response: one
    request is made, every form control goes back to its default value, the
    sent notice is shown, no deep link is scheduled, and the button is
    enabled again. *)
Theorem remote_success_resets_form (cfg : config) (p : page) :
  FORM_ACTION_URL cfg <> "" -> form p = true -> fst (validateForm p) = true ->
  let p' := on_submit cfg Ok p in
  log p' = (log p ++ Fetch (FORM_ACTION_URL cfg)
                  :: match feedback p with
                     | Some _ => [Notice sent_notice "success"]
                     | None => []
                     end)%list
  /\ timers p' = timers p
  /\ feedback p' = (fun _ => {| fb_textContent := sent_notice;
                                fb_className := "form-feedback success" |}) <$> feedback p
  /\ submitBtn p' = (fun _ => restored) <$> submitBtn p
  /\ (forall id fe, doc p !! id = Some fe ->
        exists fe', doc p' !! id = Some fe'
          /\ value fe' = (if form_control fe then defaultValue fe else value fe)).
Proof.
  intros Hurl Hform Hvalid p'.
  destruct (validateForm_spec p) as [_ (_ & Hfb & Hbtn & Htm & Hlog & _)].
  unfold p'. rewrite (on_submit_valid cfg Ok p Hform Hvalid). cbv zeta.
  apply String.eqb_neq in Hurl. rewrite Hurl.
  unfold reenable_submit, showFeedback, form_reset, emit, disable_submit, with_submitBtn,
    with_doc. cbn [feedback doc form submitBtn timers log]. rewrite Hfb.
  destruct (feedback p) as [fb|]; cbn [feedback doc form submitBtn timers log
    fmap option_fmap option_map]; rewrite Hlog, Htm, Hbtn.
  - split; [rewrite <- app_assoc; reflexivity|]. split; [reflexivity|].
    split; [reflexivity|]. split; [destruct (submitBtn p); reflexivity|].
    intros id fe Hid. rewrite lookup_fmap.
    pose proof (validateForm_kept p id) as Hk. rewrite Hid in Hk.
    destruct (doc (snd (validateForm p)) !! id) as [fe1|]; [|discriminate].
    cbn in Hk |- *. injection Hk as Hv Hd Hc. eexists. split; [reflexivity|].
    unfold reset_value. rewrite Hc. destruct (form_control fe); cbn [value]; congruence.
  - split; [reflexivity|]. split; [reflexivity|].
    split; [reflexivity|]. split; [destruct (submitBtn p); reflexivity|].
    intros id fe Hid. rewrite lookup_fmap.
    pose proof (validateForm_kept p id) as Hk. rewrite Hid in Hk.
    destruct (doc (snd (validateForm p)) !! id) as [fe1|]; [|discriminate].
    cbn in Hk |- *. injection Hk as Hv Hd Hc. eexists. split; [reflexivity|].
    unfold reset_value. rewrite Hc. destruct (form_control fe); cbn [value]; congruence.
Qed.

Lemma fallback_fetches cfg q :
  filter (fun e => is_fetch e = true) (log (fallbackToWhatsApp cfg q))
  = filter (fun e => is_fetch e = true) (log q).
Proof.
  destruct (fallback_frame cfg q) as (_ & _ & _ & -> & _).
  rewrite filter_app. unfold fallback_notices.
  destruct (feedback q); cbn; rewrite ?app_nil_r; reflexivity.
Qed.

(** X19. Requests are made only when an endpoint is configured, and then
    exactly one per valid submission whatever the answer: there is no retry.
    Without an endpoint, or when validation fails, a submission makes no
    request at all. *)
Theorem one_request_per_submission (cfg : config) (r : response) (p : page) :
  let fetches (q : page) := filter (fun e => is_fetch e = true) (log q) in
  (FORM_ACTION_URL cfg = "" \/ fst (validateForm p) = false \/ form p = false ->
   fetches (on_submit cfg r p) = fetches p)
  /\ (FORM_ACTION_URL cfg <> "" -> fst (validateForm p) = true -> form p = true ->
      fetches (on_submit cfg r p) = (fetches p ++ [Fetch (FORM_ACTION_URL cfg)])%list).
Proof.
  intros fetches. unfold fetches.
  destruct (validateForm_spec p) as [_ (_ & Hfb & _ & _ & Hlog & _)].
  split.
  - intros Hcase. destruct (form p) eqn:Hform.
    2:{ unfold on_submit. rewrite Hform. reflexivity. }
    destruct (fst (validateForm p)) eqn:Hvalid.
    2:{ rewrite (on_submit_invalid cfg r p Hform Hvalid), Hlog. reflexivity. }
    destruct Hcase as [Hurl|[H|H]]; try discriminate.
    rewrite (on_submit_valid cfg r p Hform Hvalid). cbv zeta. rewrite Hurl.
    cbn [String.eqb]. unfold setTimeout. cbn [log]. rewrite fallback_fetches.
    unfold disable_submit, with_submitBtn. cbn [log]. rewrite Hlog. reflexivity.
  - intros Hurl Hvalid Hform.
    rewrite (on_submit_valid cfg r p Hform Hvalid). cbv zeta.
    apply String.eqb_neq in Hurl. rewrite Hurl.
    unfold reenable_submit, with_submitBtn. cbn [log].
    destruct r.
    + unfold showFeedback, form_reset, with_doc, emit, disable_submit, with_submitBtn.
      cbn [feedback log]. destruct (feedback _); cbn [log]; rewrite Hlog;
        rewrite ?filter_app; cbn; rewrite ?app_nil_r; reflexivity.
    + rewrite fallback_fetches. unfold emit, disable_submit, with_submitBtn. cbn [log].
      rewrite Hlog, filter_app. reflexivity.
    + rewrite fallback_fetches. unfold emit, disable_submit, with_submitBtn. cbn [log].
      rewrite Hlog, !filter_app. cbn. rewrite app_nil_r. reflexivity.
Qed.

(** X20. Unless the endpoint answered ok, a submission never changes what the
    user typed: with no endpoint, on a failed validation, on a non-ok
    response and on a network error every element keeps its value. *)
Theorem only_success_clears_fields (cfg : config) (r : response) (p : page) :
  FORM_ACTION_URL cfg = "" \/ r <> Ok ->
  forall id, value <$> doc (on_submit cfg r p) !! id = value <$> doc p !! id.
Proof.
  intros Hcase id.
  destruct (validateForm_spec p) as [_ (_ & _ & _ & _ & _ & Hval)].
  destruct (form p) eqn:Hform.
  2:{ unfold on_submit. rewrite Hform. reflexivity. }
  destruct (fst (validateForm p)) eqn:Hvalid.
  2:{ rewrite (on_submit_invalid cfg r p Hform Hvalid). apply Hval. }
  rewrite (on_submit_valid cfg r p Hform Hvalid). cbv zeta.
  destruct (String.eqb (FORM_ACTION_URL cfg) "") eqn:Hurl.
  - unfold setTimeout. cbn [doc].
    destruct (fallback_frame cfg (disable_submit (snd (validateForm p)))) as (-> & _).
    apply Hval.
  - unfold reenable_submit, with_submitBtn. cbn [doc].
    destruct r.
    + destruct Hcase as [H|H]; [|congruence].
      rewrite H in Hurl. discriminate.
    + destruct (fallback_frame cfg (emit (Fetch (FORM_ACTION_URL cfg))
                  (disable_submit (snd (validateForm p))))) as (-> & _).
      apply Hval.
    + destruct (fallback_frame cfg (emit ConsoleWarn (emit (Fetch (FORM_ACTION_URL cfg))
                  (disable_submit (snd (validateForm p)))))) as (-> & _).
      apply Hval.
Qed.

(** X21. For a page with every required input and error slot, the form
    validates exactly when each of the four required fields is non-empty
    after trimming; and validating changes no value, no feedback, no button,
    no timer and no log entry. *)
Theorem form_valid_iff_all_filled (p : page) :
  well_formed p ->
  (fst (validateForm p) = true <->
   forall f e m fe, (f, e, m) ∈ required -> doc p !! f = Some fe -> trim (value fe) <> "")
  /\ same_inputs p (snd (validateForm p)).
Proof.
  intros Hwf. split; [|apply validateForm_spec].
  rewrite validateForm_passes. split.
  - intros H f e m fe Hin Hf. specialize (H f e m Hin). unfold passes in H.
    rewrite Hf in H. destruct (Hwf f e m Hin) as [_ [ee He]]. rewrite He in H.
    apply isEmpty_not_trim, negb_true_iff, H.
  - intros H f e m Hin. unfold passes.
    destruct (doc p !! f) as [fe|] eqn:Hf; [|reflexivity].
    destruct (doc p !! e); [|reflexivity].
    apply negb_true_iff, isEmpty_not_trim, (H f e m fe Hin Hf).
Qed.

End ContactFlowMore.

(** ** The composed message and the input listeners *)

Section ContactTextMore.

Import JsString JsStringAux Contact ContactInput.

Lemma prefixed_nonempty (a : ascii) (s x : string) : String a s ++ x <> "".
Proof. change (String a (s ++ x) <> ""). discriminate. Qed.

Lemma serviceLabels_nonempty (v l : string) : serviceLabels !! v = Some l -> l <> "".
Proof.
  intros H. unfold serviceLabels in H. apply elem_of_list_to_map_2 in H.
  repeat (apply elem_of_cons in H as [H|H]; [injection H as -> ->; discriminate|]).
  apply elem_of_nil in H. contradiction.
Qed.

Lemma or_else_nonempty (a b : string) : a <> "" -> or_else a b = a.
Proof. intros H. unfold or_else. apply String.eqb_neq in H. rewrite H. reflexivity. Qed.

(** X22. The composed text is the greeting and the four lines Service, Area,
    Name, Phone, in that order, one per line, followed by a Details line
    exactly when the message is non-empty after trimming.  The service line
    carries the label of the service code, or the code itself when the code
    has no label (for a code that is not a member every object inherits). *)
Theorem message_text_structure (p : page) :
  raw_value "serviceType" p ∉ object_prototype_keys ->
  let service := raw_value "serviceType" p in
  let message := trimmed_value "clientMessage" p in
  waText p =
    join newline
      [ "Hi Dosmac! I'd like a quote for:";
        "Service: " ++ default service (serviceLabels !! service);
        "Area: " ++ trimmed_value "clientArea" p;
        "Name: " ++ trimmed_value "clientName" p;
        "Phone: " ++ trimmed_value "clientPhone" p ]
    ++ (if String.eqb message "" then "" else newline ++ "Details: " ++ message).
Proof.
  intros _ service message. unfold waText. fold service. fold message.
  assert (Hlabel : match serviceLabels !! service with
                   | Some l => or_else l service
                   | None => service
                   end = default service (serviceLabels !! service)).
  { destruct (serviceLabels !! service) as [l|] eqn:Hl; [|reflexivity].
    cbn. apply or_else_nonempty, (serviceLabels_nonempty service l Hl). }
  rewrite Hlabel.
  rewrite filter_cons_True by discriminate.
  do 4 rewrite filter_cons_True by apply prefixed_nonempty.
  destruct (String.eqb message "") eqn:Hm.
  - rewrite filter_cons_False by (intros H; apply H; reflexivity).
    rewrite filter_nil, string_app_nil_r. reflexivity.
  - rewrite filter_cons_True by apply prefixed_nonempty. rewrite filter_nil.
    cbn [join]. rewrite !string_app_assoc. reflexivity.
Qed.

(** X23. An input event on a required field clears that field's border
    colour and the text of its error slot and nothing else: other elements,
    every value, the feedback, the button, the timers and the log stay as
    they are.  It does not validate: whether the field would pass is
    unchanged, so a field that is still empty loses its error mark until
    the next submission. *)
Theorem input_clears_own_marks (p : page) (f e m : string) (fe : felement) :
  (f, e, m) ∈ required -> form p = true -> doc p !! f = Some fe ->
  let p' := on_input f p in
  doc p' !! f = Some (set_borderColor "" fe)
  /\ doc p' !! e = set_textContent "" <$> doc p !! e
  /\ (forall id, id <> f -> id <> e -> doc p' !! id = doc p !! id)
  /\ (forall id, kept <$> doc p' !! id = kept <$> doc p !! id)
  /\ (feedback p' = feedback p /\ submitBtn p' = submitBtn p
      /\ timers p' = timers p /\ log p' = log p)
  /\ passes f e p' = passes f e p.
Proof.
  intros Hin Hform Hf p'.
  assert (Hp' : p' = with_doc (alter (set_textContent "") e
                                 (alter (set_borderColor "") f (doc p))) p /\ f <> e).
  { unfold p', on_input. rewrite Hform, Hf. unfold required in Hin.
    repeat (apply elem_of_cons in Hin as [Hin|Hin];
            [injection Hin as -> -> ->; split; [reflexivity | discriminate]|]).
    apply elem_of_nil in Hin. contradiction. }
  destruct Hp' as [Hp' Hne]. rewrite Hp'. unfold with_doc.
  cbn [doc feedback submitBtn timers log].
  assert (Hkept : forall id,
            kept <$> alter (set_textContent "") e (alter (set_borderColor "") f (doc p)) !! id
            = kept <$> doc p !! id)
    by (intros id; rewrite !alter_kept by reflexivity; reflexivity).
  split.
  { rewrite lookup_alter_ne, lookup_alter_eq, Hf by congruence. reflexivity. }
  split.
  { rewrite lookup_alter_eq, lookup_alter_ne by congruence. reflexivity. }
  split.
  { intros id Hidf Hide. rewrite !lookup_alter_ne by congruence. reflexivity. }
  split; [exact Hkept|]. split; [auto|].
  unfold passes. cbn [doc].
  pose proof (Hkept f) as Hkf. pose proof (Hkept e) as Hke.
  destruct (alter _ e _ !! f) as [x|], (doc p !! f) as [y|]; try discriminate;
    destruct (alter _ e _ !! e) as [x'|], (doc p !! e) as [y'|]; try discriminate;
    try reflexivity.
  cbn in Hkf. injection Hkf as Hv _ _. unfold isEmpty. rewrite Hv. reflexivity.
Qed.

End ContactTextMore.

(** ** Instances *)

Lemma menu_missing_is_inert_witness :
  let p := {| Menu.toggle := None;
              Menu.menu := Some {| classes := {["is-open"]}; attrs := ∅ |};
              Menu.navbar := true; Menu.wired := false |} in
  Menu.run (Menu.initMobileMenu p) [Menu.cancel_key; Menu.outside_click Menu.Elsewhere] = p.
Proof.
  intros p.
  apply (menu_missing_is_inert p [Menu.cancel_key; Menu.outside_click Menu.Elsewhere]).
  - reflexivity.
  - left. reflexivity.
Defined.

Lemma menu_marks_coherent_witness :
  let p := {| Menu.toggle := Some {| classes := ∅; attrs := ∅ |};
              Menu.menu := Some {| classes := ∅; attrs := ∅ |};
              Menu.navbar := true; Menu.wired := false |} in
  let q := Menu.run (Menu.initMobileMenu p) [Menu.toggle_activation true] in
  q = Menu.initMobileMenu p
  \/ (Menu.state_of q = Menu.Open /\ Menu.shows_open q)
  \/ (Menu.state_of q = Menu.Closed /\ Menu.shows_closed q).
Proof.
  intros p q.
  apply (menu_marks_coherent p [Menu.toggle_activation true]); eexists; reflexivity.
Defined.

Lemma menu_closed_sample :
  let q := {| Menu.toggle := Some {| classes := ∅; attrs := {["aria-expanded" := "false"]} |};
              Menu.menu := Some {| classes := ∅; attrs := {["aria-hidden" := "true"]} |};
              Menu.navbar := true; Menu.wired := true |} in
  Menu.active q /\ Menu.shows_closed q.
Proof.
  intros q. split.
  - split; [reflexivity|]. split; eexists; reflexivity.
  - eexists _, _. split; [reflexivity|]. split; [reflexivity|].
    split; [apply not_elem_of_empty|]. split; [apply not_elem_of_empty|].
    split; reflexivity.
Qed.

Lemma menu_open_close_round_trip_witness :
  let q := {| Menu.toggle := Some {| classes := ∅; attrs := {["aria-expanded" := "false"]} |};
              Menu.menu := Some {| classes := ∅; attrs := {["aria-hidden" := "true"]} |};
              Menu.navbar := true; Menu.wired := true |} in
  Menu.step (Menu.step q (Menu.toggle_activation true)) Menu.cancel_key = q.
Proof.
  intros q.
  apply (menu_open_close_round_trip q (proj1 menu_closed_sample) eq_refl
           (proj2 menu_closed_sample)).
Defined.

Lemma toggle_outside_navbar_never_opens_witness :
  let q := {| Menu.toggle := Some {| classes := ∅; attrs := {["aria-expanded" := "false"]} |};
              Menu.menu := Some {| classes := ∅; attrs := {["aria-hidden" := "true"]} |};
              Menu.navbar := true; Menu.wired := true |} in
  Menu.state_of (Menu.step q (Menu.toggle_activation false)) = Menu.Closed.
Proof.
  intros q.
  apply (toggle_outside_navbar_never_opens q (proj1 menu_closed_sample) eq_refl).
Defined.

Lemma menu_ignored_events_witness :
  let q := {| Menu.toggle := Some {| classes := ∅; attrs := {["aria-expanded" := "false"]} |};
              Menu.menu := Some {| classes := ∅; attrs := {["aria-hidden" := "true"]} |};
              Menu.navbar := true; Menu.wired := true |} in
  Menu.step q (Menu.Keydown "Enter") = q.
Proof.
  intros q.
  apply (proj1 (menu_ignored_events q (proj1 menu_closed_sample)) "Enter").
  discriminate.
Defined.


Lemma countUp_terminates_witness :
  Counter.textContent
    (fold_left (Counter.step CONFIG 120) [16; 1000; 2016; 2033]%Q Counter.countUp)
  = Some 120%Z.
Proof.
  refine (proj1 (proj2 (countUp_terminates CONFIG 120 eq_refl 16%Q [1000; 2016; 2033]%Q _ _))).
  - intros H. vm_compute in H. discriminate H.
  - exists 2016%Q. split.
    + apply elem_of_cons. right. apply elem_of_cons. left. reflexivity.
    + discriminate.
Defined.

Lemma zero_timestamp_does_not_start_clock_witness :
  Counter.frames CONFIG 120 Counter.countUp [0; 1000; 1500]%Q
  = Some 0%Z :: Counter.frames CONFIG 120 Counter.countUp [1000; 1500]%Q.
Proof.
  apply (zero_timestamp_does_not_start_clock CONFIG 120 eq_refl 1000%Q [1500%Q]).
Defined.

Lemma portfolio_last_click_wins_witness :
  let tab tag := {| classes := ∅; attrs := {[ "data-filter" := tag ]} |} in
  let item tag := {| classes := ∅; attrs := {[ "data-category" := tag ]} |} in
  let p := Portfolio.initPortfolioFilter
             (Portfolio.markup [tab "all"; tab "solar"] [item "solar"; item "wiring"]) in
  Portfolio.click 0 (Portfolio.click 1 p) = Portfolio.click 0 p.
Proof.
  intros tab item p.
  apply (portfolio_last_click_wins p 0 1); cbn; lia.
Defined.

Lemma remote_success_resets_form_witness :
  let cfg := {| WHATSAPP_NUMBER := "263717675763";
                FORM_ACTION_URL := "https://formspree.io/f/abc";
                WHATSAPP_DEFAULT_MESSAGE := "";
                NAVBAR_SCROLL_THRESHOLD := 80; COUNTER_DURATION_MS := 2000 |} in
  let p := Contact.sample_page "John" "0771234567" "solar" "Harare" in
  Contact.timers (Contact.on_submit cfg Contact.Ok p) = Contact.timers p.
Proof.
  intros cfg p.
  apply (proj1 (proj2 (remote_success_resets_form cfg p
                         ltac:(discriminate) eq_refl eq_refl))).
Defined.

Lemma one_request_per_submission_witness :
  let cfg := {| WHATSAPP_NUMBER := "263717675763";
                FORM_ACTION_URL := "https://formspree.io/f/abc";
                WHATSAPP_DEFAULT_MESSAGE := "";
                NAVBAR_SCROLL_THRESHOLD := 80; COUNTER_DURATION_MS := 2000 |} in
  let p := Contact.sample_page "John" "0771234567" "solar" "Harare" in
  filter (fun e => Contact.is_fetch e = true)
    (Contact.log (Contact.on_submit cfg Contact.NotOk p))
  = [Contact.Fetch "https://formspree.io/f/abc"].
Proof.
  intros cfg p.
  apply (proj2 (one_request_per_submission cfg Contact.NotOk p)
           ltac:(discriminate) eq_refl eq_refl).
Defined.

Lemma only_success_clears_fields_witness :
  let cfg := {| WHATSAPP_NUMBER := "263717675763";
                FORM_ACTION_URL := "https://formspree.io/f/abc";
                WHATSAPP_DEFAULT_MESSAGE := "";
                NAVBAR_SCROLL_THRESHOLD := 80; COUNTER_DURATION_MS := 2000 |} in
  let p := Contact.sample_page "John" "0771234567" "solar" "Harare" in
  Contact.value <$> Contact.doc (Contact.on_submit cfg Contact.NetworkError p) !! "clientName"
  = Contact.value <$> Contact.doc p !! "clientName".
Proof.
  intros cfg p.
  apply (only_success_clears_fields cfg Contact.NetworkError p). right. discriminate.
Defined.

Lemma sample_page_well_formed (n ph sv a : string) :
  Contact.well_formed (Contact.sample_page n ph sv a).
Proof.
  intros f e m Hin. unfold Contact.required in Hin.
  repeat (apply elem_of_cons in Hin as [Hin|Hin];
          [injection Hin as -> -> ->; split; eexists; reflexivity|]).
  apply elem_of_nil in Hin. contradiction.
Qed.

Lemma form_valid_iff_all_filled_witness :
  Contact.same_inputs (Contact.sample_page "John" "" "solar" "Harare")
    (snd (Contact.validateForm (Contact.sample_page "John" "" "solar" "Harare"))).
Proof.
  apply (proj2 (form_valid_iff_all_filled _
                  (sample_page_well_formed "John" "" "solar" "Harare"))).
Defined.

Lemma message_text_structure_witness :
  Contact.waText (Contact.sample_page "John" "0771234567" "wiring" "Harare")
  = JsString.join JsString.newline
      [ "Hi Dosmac! I'd like a quote for:"; "Service: House Wiring / Rewire";
        "Area: Harare"; "Name: John"; "Phone: 0771234567" ].
Proof.
  rewrite (message_text_structure
             (Contact.sample_page "John" "0771234567" "wiring" "Harare")).
  - reflexivity.
  - intros Hin. unfold JsStringAux.object_prototype_keys in Hin.
    repeat (apply elem_of_cons in Hin as [Hin|Hin]; [discriminate Hin|]).
    apply elem_of_nil in Hin. exact Hin.
Defined.

Lemma input_clears_own_marks_witness :
  let p := snd (Contact.validateForm (Contact.sample_page "" "0771234567" "solar" "Harare")) in
  Contact.textContent <$> Contact.doc (ContactInput.on_input "clientName" p) !! "nameError"
  = Some "".
Proof.
  intros p.
  destruct (input_clears_own_marks p "clientName" "nameError" "Please enter your name."
              (Contact.set_borderColor "#FF5555" (Contact.input "")))
    as (_ & He & _).
  - apply elem_of_cons. left. reflexivity.
  - reflexivity.
  - reflexivity.
  - rewrite He. reflexivity.
Defined.

(** ** The animation samples the clock; the flow without optional elements *)

Section CounterSampling.

Import Counter.
Local Open Scope Q_scope.

Variable cfg : config.
Variable T : Z.
Hypothesis D_pos : 0 < COUNTER_DURATION_MS cfg.
Variable t0 : Q.
Hypothesis t0_set : ~ t0 == 0.





End CounterSampling.


Section ContactOptional.

Import JsString Contact.




End ContactOptional.

